(** * crypto/utils: AES-CTR, HKDF/PBKDF2 key derivation and the base58
      recovery-key codec of [src/crypto/utils/utils.go]

    The file has three parts.  The first part is a shallow embedding of the
    Go code: the handful of runtime notions the code relies on (panics,
    slices, [copy], [make]), the library calls it makes ([math/big],
    [btcutil/base58], [crypto/cipher], [crypto/hmac], [x/crypto/hkdf],
    [x/crypto/pbkdf2], [encoding/base64], [math/rand]), the functions of
    [utils.go] themselves, and the vocabulary of the statements.  The second
    part states and proves the properties of the specification, the third
    part further properties of the package.

    Conventions.
    - A Go [byte] is a [Byte.byte]; [[]byte] and fixed-size arrays are
      [list byte] (the length of an array is carried by the definitions that
      allocate it and by length hypotheses on array-typed parameters).
    - A Go [string] is an immutable byte sequence, hence also a [list byte];
      the conversion [[]byte(name)] is the identity.
    - A Go [int] is a [Z]; unbounded [big.Int] values are [N].
    - Code that may panic returns a [result].
    - [aes.NewCipher], [sha256.New], [sha512.New] and the random source are
      parameters of the functions that call them. *)

From Stdlib Require Import String Ascii List NArith ZArith Lia Bool.
From Stdlib.Strings Require Import Byte.
Import ListNotations.

Set Implicit Arguments.
Local Open Scope N_scope.

Ltac Zify.zify_post_hook ::= Z.to_euclidean_division_equations.

(* ================================================================== *)
(** * Part I: the embedding *)
(* ================================================================== *)

(** ** Outcomes of a Go call *)

(** A call either returns a value, panics, or (for the loops whose
    termination depends on an interface implementation) does not finish
    within the fuel the model gives it. *)
Inductive result (A : Type) : Type :=
| Ok (a : A)
| Panic
| OutOfFuel.

Arguments Ok {A} a.
Arguments Panic {A}.
Arguments OutOfFuel {A}.

Definition bind {A B} (r : result A) (k : A -> result B) : result B :=
  match r with
  | Ok a => k a
  | Panic => Panic
  | OutOfFuel => OutOfFuel
  end.

Notation "x <- r ;; k" := (bind r (fun x => k))
  (at level 61, r at next level, right associativity).
Notation "' pat <- r ;; k" := (bind r (fun x => match x with pat => k end))
  (at level 61, pat pattern, r at next level, right associativity).

(** ** Bytes *)

Definition gostring := list byte.

Definition byte_of_N (n : N) : byte :=
  match Byte.of_N (n mod 256) with
  | Some b => b
  | None => x00
  end.

(** [a ^ b], [a & b] and [a + 1] on [byte] (the last one wraps). *)
Definition bxor (a b : byte) : byte :=
  byte_of_N (N.lxor (Byte.to_N a) (Byte.to_N b)).

Definition band (a b : byte) : byte :=
  byte_of_N (N.land (Byte.to_N a) (Byte.to_N b)).

Definition bsucc (a : byte) : byte := byte_of_N (Byte.to_N a + 1).

(** The text of a literal. *)
Definition str (s : string) : gostring := list_byte_of_string s.

(** ** Slices *)

Section Slices.
Context {A : Type}.

(** [l[lo:hi]]; panics unless [lo <= hi <= len(l)]. *)
Definition slice (l : list A) (lo hi : nat) : result (list A) :=
  if (lo <=? hi)%nat && (hi <=? length l)%nat
  then Ok (firstn (hi - lo) (skipn lo l))
  else Panic.

(** [l[i]]; panics when [i] is out of range. *)
Definition index (l : list A) (i : nat) : result A :=
  match nth_error l i with
  | Some a => Ok a
  | None => Panic
  end.

(** [copy(dst, src)]: the contents of [dst] afterwards.  The first
    [min(len(dst), len(src))] elements are overwritten. *)
Definition copy (dst src : list A) : list A :=
  firstn (length dst) src ++ skipn (length src) dst.

(** The array [l] after its window [l[lo:hi]] received the contents
    [w]: a slice aliases the array it was cut from. *)
Definition write_back (l : list A) (lo hi : nat) (w : list A) : list A :=
  firstn lo l ++ w ++ skipn hi l.

(** [l[i] = v]; panics when [i] is out of range. *)
Definition assign (l : list A) (i : nat) (v : A) : result (list A) :=
  if (i <? length l)%nat
  then Ok (firstn i l ++ v :: skipn (S i) l)
  else Panic.
End Slices.

(** [make([]byte, n)] and zero-valued arrays. *)
Definition zeros (n : nat) : list byte := repeat x00 n.

(** ** [math/big]: the two conversions used by base58 *)

Module big.

(** [new(big.Int).SetBytes(b)]: [b] read as a big-endian unsigned
    integer. *)
Definition SetBytes (b : list byte) : N :=
  fold_left (fun acc c => acc * 256 + Byte.to_N c) b 0.

(** The digits of [x] to the given radix, least significant first,
    obtained by repeated [DivMod] while [x > 0].  [fuel] bounds the number
    of divisions; [digits_fuel_irrelevant] shows that the bound used by
    the callers is never reached. *)
Fixpoint digits (radix : N) (fuel : nat) (x : N) : list N :=
  match fuel with
  | O => []
  | S fuel' =>
      if 0 <? x then x mod radix :: digits radix fuel' (x / radix) else []
  end.

(** [x.Bytes()]: the big-endian bytes of [x] without leading zero
    bytes; empty for zero. *)
Definition Bytes (x : N) : list byte :=
  rev (map byte_of_N (digits 256 (N.size_nat x) x)).

End big.

(** ** [strings] *)

Module strings.

(** [strings.ReplaceAll(s, old, new)] for a one-byte [old]: every
    occurrence of that byte is replaced by [new]. *)
Definition ReplaceAll (s : gostring) (old : byte) (new : gostring)
  : gostring :=
  flat_map (fun c => if Byte.eqb c old then new else [c]) s.

End strings.

(** ** [github.com/btcsuite/btcutil/base58]

    The package is a dependency, not part of this repository.  The model
    follows its [big.Int] implementation of the modified (Bitcoin) base58
    encoding. *)

Module base58.

Definition alphabet : gostring :=
  str "123456789ABCDEFGHJKLMNPQRSTUVWXYZabcdefghijkmnopqrstuvwxyz".

Definition alphabetIdx0 : byte := "1"%byte.

Fixpoint find_index (c : byte) (l : list byte) (i : N) : N :=
  match l with
  | [] => 255
  | a :: l' => if Byte.eqb a c then i else find_index c l' (i + 1)
  end.

(** The table [b58]: the position of a byte in the alphabet, 255 for a
    byte that is not a base58 character. *)
Definition b58 (c : byte) : N := find_index c alphabet 0.

(** The accumulation loop of [Decode], running from the last character to
    the first: [answer += j * b58[b[i]]; j *= 58].  [None] is the early
    return on a character outside the alphabet. *)
Fixpoint decode_loop (rb : list byte) (answer j : N) : option N :=
  match rb with
  | [] => Some answer
  | c :: rb' =>
      let tmp := b58 c in
      if tmp =? 255 then None
      else decode_loop rb' (answer + j * tmp) (j * 58)
  end.

(** The number of leading occurrences of [c]. *)
Fixpoint count_leading (c : byte) (b : list byte) : nat :=
  match b with
  | a :: b' => if Byte.eqb a c then S (count_leading c b') else O
  | [] => O
  end.

Definition Decode (b : gostring) : list byte :=
  match decode_loop (rev b) 0 1 with
  | None => []
  | Some answer =>
      let tmpval := big.Bytes answer in
      let numZeros := count_leading alphabetIdx0 b in
      let flen := (numZeros + length tmpval)%nat in
      let val := zeros flen in
      firstn numZeros val ++ copy (skipn numZeros val) tmpval
  end.

(** The division loop of [Encode]:
    [for x > 0 { x, mod = DivMod(x, 58);]
    [answer = append(answer, alphabet[mod]) }]. *)
Fixpoint encode_loop (fuel : nat) (x : N) (answer : list byte)
  : list byte :=
  match fuel with
  | O => answer
  | S fuel' =>
      if 0 <? x
      then encode_loop fuel' (x / 58)
             (answer ++ [nth (N.to_nat (x mod 58)) alphabet x00])
      else answer
  end.

(** The loop over the leading zero bytes of the input. *)
Fixpoint encode_zeros (b : list byte) (answer : list byte) : list byte :=
  match b with
  | [] => answer
  | i :: b' =>
      if negb (Byte.eqb i x00) then answer
      else encode_zeros b' (answer ++ [alphabetIdx0])
  end.

Definition Encode (b : list byte) : gostring :=
  let x := big.SetBytes b in
  let answer := encode_loop (N.size_nat x) x [] in
  let answer := encode_zeros b answer in
  rev answer.

End base58.

(** ** [utils.go]: constants and the recovery-key codec *)

Definition AESCTRKeyLength : nat := 32.
Definition AESCTRIVLength : nat := 16.
Definition HMACKeyLength : nat := 32.
Definition SHAHashLength : nat := 32.

(** [var parity byte; for _, b := range w { parity ^= b }]. *)
Definition parity_loop (w : list byte) : byte :=
  fold_left (fun parity b => bxor parity b) w x00.

(** [DecodeBase58RecoveryKey]; [Ok None] is the [nil] return. *)
Definition DecodeBase58RecoveryKey (recoveryKey : gostring)
  : result (option (list byte)) :=
  let noSpaces := strings.ReplaceAll recoveryKey " "%byte [] in
  let decoded := base58.Decode noSpaces in
  if negb (length decoded =? AESCTRKeyLength + 3)%nat then Ok None
  else
    w <- slice decoded 0 34 ;;
    let parity := parity_loop w in
    d34 <- index decoded 34 ;;
    if negb (Byte.eqb parity d34) then Ok None
    else
      d0 <- index decoded 0 ;;
      if negb (Byte.eqb d0 x8b) then Ok None
      else
        d1 <- index decoded 1 ;;
        if negb (Byte.eqb d1 x01) then Ok None
        else
          secret <- slice decoded 2 34 ;;
          Ok (Some secret).

(** Lines 106-115 of [EncodeBase58RecoveryKey]: the array [inputBytes] as
    it is handed to [base58.Encode]. *)
Definition inputBytes_of (key : list byte) : result (list byte) :=
  let inputBytes := zeros 35 in
  w <- slice inputBytes 2 34 ;;
  k <- slice key 0 (length key) ;;
  let inputBytes := write_back inputBytes 2 34 (copy w k) in
  inputBytes <- assign inputBytes 0 x8b ;;
  inputBytes <- assign inputBytes 1 x01 ;;
  w <- slice inputBytes 0 34 ;;
  let parity := parity_loop w in
  assign inputBytes 34 parity.

(** The loop that builds [spacedKey].  The string ranged over is the output
    of [base58.Encode], which is ASCII (lemma [Encode_alphabet]), so every
    rune is one byte and the rune index [i] is the byte index. *)
Fixpoint spacing_loop (i : nat) (recoveryKey : gostring)
  (spacedKey : gostring) : gostring :=
  match recoveryKey with
  | [] => spacedKey
  | c :: rest =>
      let spacedKey :=
        if (0 <? i)%nat && (i mod 4 =? 0)%nat
        then spacedKey ++ [" "%byte]
        else spacedKey in
      spacing_loop (S i) rest (spacedKey ++ [c])
  end.

Definition EncodeBase58RecoveryKey (key : list byte) : result gostring :=
  inputBytes <- inputBytes_of key ;;
  all <- slice inputBytes 0 (length inputBytes) ;;
  let recoveryKey := base58.Encode all in
  Ok (spacing_loop 0 recoveryKey []).

(** ** [crypto/cipher]: blocks and the CTR stream *)

Module cipher.

(** The interface [cipher.Block].  [Encrypt] gives the block written to
    [dst[:BlockSize]] for a source block. *)
Record Block : Type := {
  BlockSize : nat;
  Encrypt : list byte -> list byte;
  Encrypt_length : forall src, length (Encrypt src) = BlockSize
}.

(** The struct [ctr].  [out] holds the key stream generated and not yet
    consumed, that is [x.out[x.outUsed:]]; Go generates it up to 512 bytes
    ahead, which does not change the stream. *)
Record ctr : Type := {
  b : Block;
  counter : list byte;
  out : list byte
}.

(** [NewCTR(block, iv)].  A nil [block] is dereferenced. *)
Definition NewCTR (block : option Block) (iv : list byte) : result ctr :=
  match block with
  | None => Panic
  | Some blk =>
      if negb (length iv =? BlockSize blk)%nat then Panic
      else Ok {| b := blk; counter := iv; out := [] |}
  end.

(** The counter increment of [refill], from the last byte to the first:
    [x.ctr[i]++; if x.ctr[i] != 0 { break }]. *)
Fixpoint increment_rev (rc : list byte) : list byte :=
  match rc with
  | [] => []
  | c :: rc' =>
      let c' := bsucc c in
      if negb (Byte.eqb c' x00) then c' :: rc' else c' :: increment_rev rc'
  end.

Definition increment (c : list byte) : list byte :=
  rev (increment_rev (rev c)).

Definition refill (x : ctr) : ctr :=
  {| b := b x;
     counter := increment (counter x);
     out := out x ++ Encrypt (b x) (counter x) |}.

(** The loop of [XORKeyStream], one byte of [src] at a time.  With a block
    size of zero the Go loop makes no progress. *)
Fixpoint xor_loop (x : ctr) (src : list byte) : result (list byte * ctr) :=
  match src with
  | [] => Ok ([], x)
  | s :: src' =>
      let x := match out x with [] => refill x | _ => x end in
      match out x with
      | [] => OutOfFuel
      | k :: o =>
          '(d, x') <-
            xor_loop {| b := b x; counter := counter x; out := o |} src' ;;
          Ok (bxor s k :: d, x')
      end
  end.

(** [x.XORKeyStream(dst, src)]: the contents of [dst] and the stream
    afterwards. *)
Definition XORKeyStream (x : ctr) (dst src : list byte)
  : result (list byte * ctr) :=
  if (length dst <? length src)%nat then Panic
  else '(d, x') <- xor_loop x src ;; Ok (copy dst d, x').

End cipher.

(** ** [hash] and [crypto/hmac] *)

Module hash.

(** A [hash.Hash] between [Reset] and [Sum]: the digest as a function of
    the bytes written.  [Sum_length] is the contract of [Size]. *)
Record Hash : Type := {
  Size : nat;
  BlockSize : nat;
  Sum : list byte -> list byte;
  Sum_length : forall m, length (Sum m) = Size
}.

End hash.

Module hmac.
Import hash.

Definition pad (h : Hash) (key : list byte) (c : byte) : list byte :=
  let blocksize := BlockSize h in
  let key := if (blocksize <? length key)%nat then Sum h key else key in
  map (fun k => bxor k c) (copy (zeros blocksize) key).

(** [hmac.New(h, key)]. *)
Definition New (h : Hash) (key : list byte) : Hash :=
  let ipad := pad h key x36 in
  let opad := pad h key x5c in
  {| Size := Size h;
     BlockSize := BlockSize h;
     Sum := fun m => Sum h (opad ++ Sum h (ipad ++ m));
     Sum_length := fun m => Sum_length h _ |}.

End hmac.

(** ** [golang.org/x/crypto/hkdf] *)

Module hkdf.
Import hash.

(** [Extract(hash, secret, salt)]; a nil salt stands for [Size] zero
    bytes. *)
Definition Extract (h : Hash) (secret : list byte)
  (salt : option (list byte)) : list byte :=
  let salt :=
    match salt with
    | None => zeros (Size h)
    | Some s => s
    end in
  Sum (hmac.New h salt) secret.

(** The reader returned by [Expand]. *)
Record hkdf : Type := {
  expander : Hash;
  size : nat;
  info : list byte;
  counter : byte;
  prev : list byte;
  buf : list byte
}.

Definition Expand (h : Hash) (pseudorandomKey info : list byte) : hkdf :=
  let expander := hmac.New h pseudorandomKey in
  {| expander := expander; size := Size expander; info := info;
     counter := x01; prev := []; buf := [] |}.

Definition New (h : Hash) (secret : list byte) (salt : option (list byte))
  (info : list byte) : hkdf :=
  let prk := Extract h secret salt in
  Expand h prk info.

(** The loop [for len(p) > 0] of [Read].  [written] is the part of [p]
    filled so far, [rem] the length of the part still to fill and [n]
    the result of the last [copy]. *)
Fixpoint read_loop (fuel : nat) (f : hkdf) (n : nat)
  (written : list byte) (rem : nat) : result (hkdf * nat * list byte) :=
  if (rem =? 0)%nat then Ok (f, n, written)
  else
    match fuel with
    | O => OutOfFuel
    | S fuel' =>
        let prev' :=
          Sum (expander f) (prev f ++ info f ++ [counter f]) in
        let f' :=
          {| expander := expander f; size := size f; info := info f;
             counter := bsucc (counter f); prev := prev';
             buf := prev' |} in
        let n' := Nat.min rem (length prev') in
        read_loop fuel' f' n' (written ++ firstn n' prev') (rem - n')
    end.

(** [f.Read(p)]: the contents of [p] afterwards, whether an error was
    returned, and the reader afterwards. *)
Definition Read (f : hkdf) (p : list byte)
  : result (list byte * bool * hkdf) :=
  let need := length p in
  let remains :=
    (length (buf f)
     + N.to_nat ((255 - Byte.to_N (counter f) + 1) mod 256) * size f)%nat in
  if (remains <? need)%nat then Ok (p, true, f)
  else
    let n := Nat.min (length p) (length (buf f)) in
    '(f', n', written) <-
      read_loop need f n (firstn n (buf f)) (need - n) ;;
    Ok (written, false,
        {| expander := expander f'; size := size f'; info := info f';
           counter := counter f'; prev := prev f';
           buf := skipn n' (buf f') |}).

End hkdf.

(** ** [runtime]: integers and the allocation of a slice *)

(** A Go [int] is 64 bits wide; sums and products wrap. *)
Definition int_wrap (z : Z) : Z :=
  ((z + 2 ^ 63) mod 2 ^ 64 - 2 ^ 63)%Z.

Module runtime.

(** [maxAlloc], the largest size of a single allocation:
    [1 << heapAddrBits], with 48 address bits on the 64-bit platforms
    (amd64, arm64). *)
Definition maxAlloc : Z := (2 ^ 48)%Z.

(** [make([]byte, len, cap)], which the compiler turns into a call of
    [makeslice]: the call panics ("makeslice: cap out of range" or
    "len out of range") unless [0 <= len <= cap <= maxAlloc], and returns
    [len] zero bytes otherwise.

    This is the allocation of the package whose size is computed from an
    argument of the call.  The other ones have a constant size or the size
    of a slice that is already in memory, which is within the limit; they
    are written [zeros n].  A request within the limit that the operating
    system cannot serve ends the process with a fatal error ("out of
    memory"), which is no panic; the embedding describes a run in which
    memory is served. *)
Definition makeslice (len cap : Z) : result (list byte) :=
  if ((cap <? 0) || (maxAlloc <? cap) || (len <? 0) || (cap <? len))%Z
  then Panic
  else Ok (zeros (Z.to_nat len)).

End runtime.

(** ** [golang.org/x/crypto/pbkdf2] *)

Module pbkdf2.
Import hash.

(** [byte(z)] for an [int]. *)
Definition byte_of_int (z : Z) : byte := byte_of_N (Z.to_N (z mod 256)).

(** [for x := range U { T[x] ^= U[x] }]; [T] and [U] are both [hashLen]
    bytes long. *)
Fixpoint xor_into (T U : list byte) : list byte :=
  match T, U with
  | t :: T', u :: U' => bxor t u :: xor_into T' U'
  | _, _ => T
  end.

(** The loop [for n := 2; n <= iter; n++], run [count] times. *)
Fixpoint iterate (prf : Hash) (count : nat) (U T : list byte)
  : list byte :=
  match count with
  | O => T
  | S count' =>
      let U' := Sum prf U in
      iterate prf count' U' (xor_into T U')
  end.

(** The loop [for block := 1; block <= numBlocks; block++], with [count]
    blocks still to produce.  [T] aliases the last [hashLen] bytes of
    [dk], so the block is appended once it is complete. *)
Fixpoint blocks (prf : Hash) (salt : list byte) (iter : Z) (count : nat)
  (block : Z) (dk : list byte) : list byte :=
  match count with
  | O => dk
  | S count' =>
      let buf :=
        [byte_of_int (Z.shiftr block 24); byte_of_int (Z.shiftr block 16);
         byte_of_int (Z.shiftr block 8); byte_of_int block] in
      let U := Sum prf (salt ++ buf) in
      let T := iterate prf (Z.to_nat (iter - 1)) U U in
      blocks prf salt iter count' (int_wrap (block + 1)) (dk ++ T)
  end.

(** [pbkdf2.Key(password, salt, iter, keyLen, h)].  The three panics are
    the division by a zero hash size, the allocation
    [dk := make([]byte, 0, numBlocks*hashLen)] with a capacity that is
    negative or beyond the limit of the runtime, and the final
    [dk[:keyLen]]. *)
Definition Key (password salt : list byte) (iter keyLen : Z) (h : Hash)
  : result (list byte) :=
  let prf := hmac.New h password in
  let hashLen := Z.of_nat (Size prf) in
  if (hashLen =? 0)%Z then Panic
  else
    let numBlocks :=
      Z.quot (int_wrap (int_wrap (keyLen + hashLen) - 1)) hashLen in
    dk <- runtime.makeslice 0 (int_wrap (numBlocks * hashLen)) ;;
    let dk := blocks prf salt iter (Z.to_nat numBlocks) 1 dk in
    if (keyLen <? 0)%Z then Panic
    else slice dk 0 (Z.to_nat keyLen).

End pbkdf2.

(** ** [encoding/base64]: [StdEncoding.EncodeToString] *)

Module base64.

Definition encodeStd : gostring :=
  str "ABCDEFGHIJKLMNOPQRSTUVWXYZabcdefghijklmnopqrstuvwxyz0123456789+/".

Definition padChar : byte := "="%byte.

(** [enc.encode[val>>shift&0x3F]]. *)
Definition encode (val shift : N) : byte :=
  nth (N.to_nat (N.land (N.shiftr val shift) 63)) encodeStd x00.

(** [Encode]: three source bytes become four characters; a remainder of
    one or two bytes is padded to four characters with [padChar]. *)
Fixpoint EncodeToString (src : list byte) : gostring :=
  match src with
  | [] => []
  | [s0] =>
      let val := N.shiftl (Byte.to_N s0) 16 in
      [encode val 18; encode val 12; padChar; padChar]
  | [s0; s1] =>
      let val :=
        N.lor (N.shiftl (Byte.to_N s0) 16) (N.shiftl (Byte.to_N s1) 8) in
      [encode val 18; encode val 12; encode val 6; padChar]
  | s0 :: s1 :: s2 :: rest =>
      let val :=
        N.lor (N.lor (N.shiftl (Byte.to_N s0) 16)
                 (N.shiftl (Byte.to_N s1) 8)) (Byte.to_N s2) in
      encode val 18 :: encode val 12 :: encode val 6 :: encode val 0
        :: EncodeToString rest
  end.

End base64.

(** ** [math/rand] *)

Module rand.
Section Source.
(** The default source: a state and the step that draws one byte. *)
Variable Source : Type.
Variable next_byte : Source -> byte * Source.

Fixpoint draw (n : nat) (s : Source) : list byte * Source :=
  match n with
  | O => ([], s)
  | S n' =>
      let (c, s1) := next_byte s in
      let (cs, s2) := draw n' s1 in
      (c :: cs, s2)
  end.

(** [rand.Read(p)]: the contents of [p] afterwards, whether an error
    was returned (never), and the source afterwards. *)
Definition Read (p : list byte) (s : Source)
  : list byte * bool * Source :=
  let (cs, s') := draw (length p) s in
  (cs, false, s').
End Source.
End rand.

(** ** [utils.go]: cipher, generators and key derivation *)

Section Utils.
(** The entry points of the standard library that the package calls:
    [aes.NewCipher] ([None] stands for the error return, whose block is
    nil), [sha256.New], [sha512.New] and the random source. *)
Variable aes_NewCipher : list byte -> option cipher.Block.
Variable sha256_New : hash.Hash.
Variable sha512_New : hash.Hash.
Variable Source : Type.
Variable next_byte : Source -> byte * Source.

Definition XorA256CTR (source key iv : list byte) : result (list byte) :=
  let block := aes_NewCipher key in
  let result := zeros (length source) in
  stream <- cipher.NewCTR block iv ;;
  '(result, _) <- cipher.XORKeyStream stream result source ;;
  Ok result.

Definition GenAttachmentA256CTR (s : Source)
  : result (list byte * list byte * Source) :=
  let key := zeros AESCTRKeyLength in
  let iv := zeros AESCTRIVLength in
  let '(key, err, s) := rand.Read next_byte key s in
  if err then Panic
  else
    w <- slice iv 0 8 ;;
    let '(w, err, s) := rand.Read next_byte w s in
    let iv := write_back iv 0 8 w in
    if err then Panic
    else Ok (key, iv, s).

Definition GenA256CTRIV (s : Source) : result (list byte * Source) :=
  let iv := zeros AESCTRIVLength in
  let '(iv, err, s) := rand.Read next_byte iv s in
  if err then Panic
  else
    v <- index iv 8 ;;
    iv <- assign iv 8 (band v x7f) ;;
    Ok (iv, s).

Definition DeriveKeysSHA256 (key : list byte) (name : gostring)
  : result (list byte * list byte) :=
  let zeroBytes := zeros 32 in
  let derivedHkdf := hkdf.New sha256_New key (Some zeroBytes) name in
  let aesKey := zeros AESCTRKeyLength in
  let hmacKey := zeros HMACKeyLength in
  '(aesKey, _, derivedHkdf) <- hkdf.Read derivedHkdf aesKey ;;
  '(hmacKey, _, derivedHkdf) <- hkdf.Read derivedHkdf hmacKey ;;
  Ok (aesKey, hmacKey).

Definition PBKDF2SHA512 (password salt : list byte) (iters keyLenBits : Z)
  : result (list byte) :=
  pbkdf2.Key password salt iters (Z.quot keyLenBits 8) sha512_New.

Definition HMACSHA256B64 (input hmacKey : list byte) : gostring :=
  let h := hmac.New sha256_New hmacKey in
  base64.EncodeToString (hash.Sum h input).

End Utils.

(** ** Vocabulary of the statements *)

(** The value of a list of digits, least significant digit first. *)
Fixpoint from_digits (radix : N) (ds : list N) : N :=
  match ds with
  | [] => 0
  | d :: ds' => d + radix * from_digits radix ds'
  end.

(** A digit list is normal when its most significant digit is not zero. *)
Definition normal (ds : list N) : Prop := last ds 1 <> 0.

(** The base58 character for a digit, and the digits that [base58.Encode]
    writes for [b]. *)
Definition chr (d : N) : byte := nth (N.to_nat d) base58.alphabet x00.

Definition digits58 (b : list byte) : list N :=
  big.digits 58 (N.size_nat (big.SetBytes b)) (big.SetBytes b).

(** Lines 89-90 of [DecodeBase58RecoveryKey]: the bytes that the decoder
    validates. *)
Definition payload_of (recoveryKey : gostring) : list byte :=
  base58.Decode (strings.ReplaceAll recoveryKey " "%byte []).

(** The four checks of the decoder in the words of the specification:
    35 bytes, the XOR of the first 34 equal to byte 34, tag [0x8B] and
    version [0x01]. *)
Definition valid_payload (d : list byte) : bool :=
  (length d =? 35)%nat
  && Byte.eqb (parity_loop (firstn 34 d)) (nth 34 d x00)
  && Byte.eqb (nth 0 d x00) x8b
  && Byte.eqb (nth 1 d x00) x01.

(** Two buffers of the same length that differ in exactly one byte. *)
Definition differ_in_one_byte (p p' : list byte) : Prop :=
  length p = length p' /\
  exists i, (i < length p)%nat /\ nth i p x00 <> nth i p' x00 /\
            forall j, j <> i -> nth j p x00 = nth j p' x00.

(** The spacing in the words of the specification: characters 0-3, then a
    space, then four more, and so on. *)
Fixpoint grouped (s : gostring) : gostring :=
  match s with
  | c0 :: c1 :: c2 :: c3 :: ((_ :: _) as rest) =>
      c0 :: c1 :: c2 :: c3 :: " "%byte :: grouped rest
  | _ => s
  end.

(** The framed buffer around a 32-byte body: tag, version, body, parity. *)
Definition framed (body : list byte) : list byte :=
  x8b :: x01 :: body ++ [parity_loop (x8b :: x01 :: body)].

(** The XOR of a sequence of bytes in the words of the specification, read
    bit by bit: bit [j] of the XOR is set exactly when the number of bytes
    of the sequence that have bit [j] set is odd. *)
Definition odd_bit (j : N) (l : list byte) : bool :=
  Nat.odd (length (filter (fun b => N.testbit (Byte.to_N b) j) l)).

Definition is_xor_of (x : byte) (l : list byte) : Prop :=
  forall j : N, N.testbit (Byte.to_N x) j = odd_bit j l.

(** The byte-wise XOR of two byte strings, up to the shorter one. *)
Fixpoint xor_bytes (a b : list byte) : list byte :=
  match a, b with
  | x :: a', y :: b' => bxor x y :: xor_bytes a' b'
  | _, _ => []
  end.

(** The strings of [groups] written one after the other with [sep]
    between them. *)
Fixpoint joined (sep : gostring) (groups : list gostring) : gostring :=
  match groups with
  | [] => []
  | [g] => g
  | g :: rest => g ++ sep ++ joined sep rest
  end.

(** A string cut into groups of four characters; the last group may be
    shorter. *)
Fixpoint quads (s : gostring) : list gostring :=
  match s with
  | c0 :: c1 :: c2 :: c3 :: rest => [c0; c1; c2; c3] :: quads rest
  | [] => []
  | _ => [s]
  end.

(** HKDF in the words of RFC 5869, against which the reader of
    [x/crypto/hkdf] is compared. *)
Module rfc5869.
Import hash.

Definition HMAC (h : Hash) (key text : list byte) : list byte :=
  Sum (hmac.New h key) text.

(** [PRK = HMAC-Hash(salt, IKM)]. *)
Definition Extract (h : Hash) (salt ikm : list byte) : list byte :=
  HMAC h salt ikm.

(** [T(0)] is empty and [T(i) = HMAC-Hash(PRK, T(i-1) | info | i)]. *)
Fixpoint T (h : Hash) (prk info : list byte) (i : nat) : list byte :=
  match i with
  | O => []
  | S j =>
      HMAC h prk (T h prk info j ++ info ++ [byte_of_N (N.of_nat i)])
  end.

(** [OKM]: the first [L] octets of [T(1) | T(2) | ... | T(N)] with
    [N = ceil(L / HashLen)]. *)
Definition Expand (h : Hash) (prk info : list byte) (L : nat)
  : list byte :=
  let N := ((L + Size h - 1) / Size h)%nat in
  firstn L (flat_map (T h prk info) (seq 1 N)).

Definition HKDF (h : Hash) (salt ikm info : list byte) (L : nat)
  : list byte :=
  Expand h (Extract h salt ikm) info L.
End rfc5869.

(** ** Sample inputs and stand-ins

    The statements below are exercised on concrete inputs.  Where a
    statement is parametric in a primitive of the standard library, the
    stand-ins of this module take its place: they have the sizes of
    AES-256, SHA-256 and SHA-512 and make no attempt at their security. *)

Module sample.

(** [l] cut or zero-padded to [n] bytes. *)
Definition fit (n : nat) (l : list byte) : list byte :=
  firstn n (l ++ zeros n).

Lemma fit_length (n : nat) (l : list byte) : length (fit n l) = n.
Proof.
  unfold fit, zeros.
  rewrite length_firstn, length_app, repeat_length. lia.
Qed.

(** A block cipher with the key sizes and the block size of AES. *)
Definition NewCipher (key : list byte) : option cipher.Block :=
  if existsb (Nat.eqb (length key)) [16; 24; 32]%nat
  then Some {| cipher.BlockSize := 16;
               cipher.Encrypt :=
                 fun src => fit 16 (map (bxor (parity_loop key)) src);
               cipher.Encrypt_length := fun src => fit_length 16 _ |}
  else None.

(** A hash with a digest of [size] bytes and blocks of [blocksize]
    bytes. *)
Definition Hash (size blocksize : nat) : hash.Hash :=
  {| hash.Size := size;
     hash.BlockSize := blocksize;
     hash.Sum :=
       fun m => fit size (map (bxor (byte_of_N (N.of_nat (length m))))
                            (rev m));
     hash.Sum_length := fun m => fit_length size _ |}.

Definition sha256 : hash.Hash := Hash 32 64.
Definition sha512 : hash.Hash := Hash 64 128.

(** A random source: a counter. *)
Definition next_byte (s : N) : byte * N :=
  (byte_of_N (167 * s + 100), s + 1).

Definition secret : list byte := str "0123456789abcdefghijklmnopqrstuv".

Definition iv : list byte := str "0123456789abcdef".

(** The encoding of the all-zero secret, and the text of its payload with
    byte 7 changed from [0x00] to [0x01]. *)
Definition accepted_text : gostring :=
  str "EsSz ygLv VP1b xF1C v7kE eBQx MxDP buG5 w25T L3b6 hfyG Kkrd".

Definition tampered_text : gostring :=
  spacing_loop 0
    (base58.Encode
       (firstn 7 (payload_of accepted_text) ++ x01
          :: skipn 8 (payload_of accepted_text))) [].

End sample.

(* ================================================================== *)
(** * Part II: properties *)
(* ================================================================== *)

(** A list of known length is a list of that many elements. *)
Ltac explode l H :=
  simpl in H;
  repeat (destruct l as [|? l]; [discriminate H|]; simpl in H);
  destruct l; [|discriminate H].

(** The XOR of bytes is reasoned about through its laws, never by
    unfolding. *)
Arguments parity_loop : simpl never.
Arguments bxor : simpl never.

(** ** Bytes *)

Section ByteFacts.

Lemma to_N_lt (a : byte) : Byte.to_N a < 256.
Proof. pose proof (Byte.to_N_bounded a). lia. Qed.

Lemma to_N_byte_of_N (n : N) : Byte.to_N (byte_of_N n) = n mod 256.
Proof.
  unfold byte_of_N. destruct (Byte.of_N (n mod 256)) as [c|] eqn:E.
  - now apply Byte.to_of_N.
  - apply Byte.of_N_None_iff in E. pose proof (N.mod_lt n 256). lia.
Qed.

Lemma to_N_inj (a c : byte) : Byte.to_N a = Byte.to_N c -> a = c.
Proof.
  intros H. pose proof (Byte.of_to_N a) as Ha.
  pose proof (Byte.of_to_N c) as Hc.
  rewrite H in Ha. congruence.
Qed.

Lemma byte_of_N_to_N (a : byte) : byte_of_N (Byte.to_N a) = a.
Proof.
  apply to_N_inj. rewrite to_N_byte_of_N. apply N.mod_small, to_N_lt.
Qed.

Lemma lt_256_log2 (n : N) : n < 256 <-> n = 0 \/ N.log2 n < 8.
Proof.
  split.
  - intros H. destruct (N.eq_dec n 0) as [->|Hn]; [now left|right].
    apply N.log2_lt_pow2; [lia|exact H].
  - intros [->|H]; [lia|].
    destruct (N.eq_dec n 0) as [->|Hn]; [lia|].
    apply (N.log2_lt_pow2 n 8); [lia|exact H].
Qed.

Lemma lxor_lt_256 (m n : N) : m < 256 -> n < 256 -> N.lxor m n < 256.
Proof.
  intros Hm Hn. apply lt_256_log2.
  destruct (N.eq_dec (N.lxor m n) 0) as [E|E]; [now left|right].
  pose proof (N.log2_lxor m n) as L.
  apply lt_256_log2 in Hm, Hn.
  destruct Hm as [->|Hm], Hn as [->|Hn]; simpl in *; lia.
Qed.

Lemma to_N_bxor (a c : byte) :
  Byte.to_N (bxor a c) = N.lxor (Byte.to_N a) (Byte.to_N c).
Proof.
  unfold bxor. rewrite to_N_byte_of_N.
  apply N.mod_small, lxor_lt_256; apply to_N_lt.
Qed.

Lemma bxor_comm (a c : byte) : bxor a c = bxor c a.
Proof. apply to_N_inj. rewrite !to_N_bxor. apply N.lxor_comm. Qed.

Lemma bxor_assoc (a c d : byte) : bxor (bxor a c) d = bxor a (bxor c d).
Proof. apply to_N_inj. rewrite !to_N_bxor. apply N.lxor_assoc. Qed.

Lemma bxor_nilpotent (a : byte) : bxor a a = x00.
Proof. apply to_N_inj. rewrite to_N_bxor, N.lxor_nilpotent. reflexivity. Qed.

Lemma bxor_0_r (a : byte) : bxor a x00 = a.
Proof. apply to_N_inj. rewrite to_N_bxor. simpl. apply N.lxor_0_r. Qed.

Lemma bxor_0_l (a : byte) : bxor x00 a = a.
Proof. rewrite bxor_comm. apply bxor_0_r. Qed.

Lemma bxor_cancel_r (a k : byte) : bxor (bxor a k) k = a.
Proof. rewrite bxor_assoc, bxor_nilpotent. apply bxor_0_r. Qed.

Lemma bxor_eq_0 (a c : byte) : bxor a c = x00 -> a = c.
Proof.
  intros H. apply to_N_inj. apply N.lxor_eq.
  rewrite <- to_N_bxor, H. reflexivity.
Qed.

Lemma bxor_inj_l (a c d : byte) : bxor a c = bxor a d -> c = d.
Proof.
  intros H. rewrite <- (bxor_0_l c), <- (bxor_0_l d), <- (bxor_nilpotent a).
  rewrite !bxor_assoc. now f_equal.
Qed.

End ByteFacts.

(** ** Positional notation *)

Section Digits.

Lemma size_nat_bound (x : N) : x < 2 ^ N.of_nat (N.size_nat x).
Proof.
  destruct x as [|p]; [reflexivity|]. simpl N.size_nat.
  induction p as [p IH|p IH|]; simpl Pos.size_nat;
    rewrite ?Nat2N.inj_succ, ?N.pow_succ_r'; lia.
Qed.

Variable radix : N.
Hypothesis radix_ge_2 : 2 <= radix.

Lemma digits_value (fuel : nat) (x : N) :
  x < 2 ^ N.of_nat fuel -> from_digits radix (big.digits radix fuel x) = x.
Proof.
  revert x. induction fuel as [|fuel IH]; intros x Hx; simpl.
  - simpl in Hx. lia.
  - rewrite Nat2N.inj_succ, N.pow_succ_r' in Hx.
    destruct (N.ltb_spec 0 x) as [Hpos|Hz]; simpl; [|lia].
    rewrite IH.
    + pose proof (N.div_mod x radix). lia.
    + assert (x / radix <= x / 2) by (apply N.div_le_compat_l; lia). lia.
Qed.

Lemma digits_lt (fuel : nat) (x : N) :
  Forall (fun d => d < radix) (big.digits radix fuel x).
Proof.
  revert x. induction fuel as [|fuel IH]; intros x; simpl; [constructor|].
  destruct (0 <? x); constructor; [|apply IH].
  apply N.mod_lt. lia.
Qed.

Lemma digits_normal (fuel : nat) (x : N) :
  x < 2 ^ N.of_nat fuel -> normal (big.digits radix fuel x).
Proof.
  unfold normal. revert x. induction fuel as [|fuel IH]; intros x Hx; simpl.
  - discriminate.
  - rewrite Nat2N.inj_succ, N.pow_succ_r' in Hx.
    destruct (N.ltb_spec 0 x) as [Hpos|Hz]; [|discriminate].
    assert (Hq : x / radix < 2 ^ N.of_nat fuel).
    { assert (x / radix <= x / 2) by (apply N.div_le_compat_l; lia). lia. }
    specialize (IH _ Hq).
    destruct (big.digits radix fuel (x / radix)) as [|d ds] eqn:E.
    + simpl. pose proof (digits_value fuel Hq) as V. rewrite E in V.
      simpl in V. rewrite N.mod_small; [lia|].
      apply N.div_small_iff; lia.
    + exact IH.
Qed.

Lemma from_digits_zeros (k : nat) : from_digits radix (repeat 0 k) = 0.
Proof. induction k as [|k IH]; simpl; [reflexivity|]. rewrite IH. lia. Qed.

Lemma from_digits_app_zeros (ds : list N) (k : nat) :
  from_digits radix (ds ++ repeat 0 k) = from_digits radix ds.
Proof.
  induction ds as [|d ds IH]; simpl; [apply from_digits_zeros|].
  now rewrite IH.
Qed.

Lemma from_digits_normal_pos (d : N) (ds : list N) :
  normal (d :: ds) -> 0 < from_digits radix (d :: ds).
Proof.
  unfold normal. revert d. induction ds as [|e ds IH]; intros d H.
  - simpl in *. lia.
  - specialize (IH e H). change (from_digits radix (d :: e :: ds))
      with (d + radix * from_digits radix (e :: ds)). nia.
Qed.

(** Dividing back recovers a normal digit list: the digit loop and
    [from_digits] are inverse to each other. *)
Lemma digits_from_digits (fuel : nat) (ds : list N) :
  Forall (fun d => d < radix) ds -> normal ds ->
  from_digits radix ds < 2 ^ N.of_nat fuel ->
  big.digits radix fuel (from_digits radix ds) = ds.
Proof.
  revert ds. induction fuel as [|fuel IH]; intros ds Hlt Hn Hb.
  - simpl in Hb. destruct ds as [|d ds]; [reflexivity|].
    pose proof (from_digits_normal_pos Hn). lia.
  - destruct ds as [|d ds]; [reflexivity|].
    pose proof (from_digits_normal_pos Hn) as Hpos.
    inversion Hlt as [|? ? Hd Hds]; subst.
    rewrite Nat2N.inj_succ, N.pow_succ_r' in Hb.
    simpl from_digits in *. simpl big.digits.
    destruct (N.ltb_spec 0 (d + radix * from_digits radix ds)); [|lia].
    assert (Hm : (d + radix * from_digits radix ds) mod radix = d).
    { rewrite (N.mul_comm radix), N.Div0.mod_add. now apply N.mod_small. }
    assert (Hq : (d + radix * from_digits radix ds) / radix
                 = from_digits radix ds).
    { rewrite (N.mul_comm radix), N.div_add by lia.
      rewrite (N.div_small d) by assumption. lia. }
    rewrite Hm, Hq. f_equal. apply IH; try assumption.
    + destruct ds; [discriminate|exact Hn].
    + nia.
Qed.

Lemma digits_fuel_irrelevant (fuel fuel' : nat) (x : N) :
  x < 2 ^ N.of_nat fuel -> x < 2 ^ N.of_nat fuel' ->
  big.digits radix fuel x = big.digits radix fuel' x.
Proof.
  intros H H'.
  rewrite <- (digits_value fuel' H') at 1.
  apply digits_from_digits.
  - apply digits_lt.
  - now apply digits_normal.
  - now rewrite digits_value.
Qed.

End Digits.

(** ** [math/big] and base58 *)

Section Base58Facts.
Import base58.

Lemma SetBytes_snoc (b : list byte) (c : byte) :
  big.SetBytes (b ++ [c]) = big.SetBytes b * 256 + Byte.to_N c.
Proof. unfold big.SetBytes. now rewrite fold_left_app. Qed.

Lemma SetBytes_from_digits (b : list byte) :
  big.SetBytes b = from_digits 256 (rev (map Byte.to_N b)).
Proof.
  induction b as [|c b IH] using rev_ind; [reflexivity|].
  rewrite SetBytes_snoc, map_app, rev_app_distr, IH.
  cbn [map rev app from_digits]. lia.
Qed.

Lemma leading_split (c : byte) (b : list byte) :
  b = repeat c (count_leading c b) ++ skipn (count_leading c b) b.
Proof.
  induction b as [|a b IH]; [reflexivity|]. simpl.
  destruct (Byte.eqb a c) eqn:E; [|reflexivity].
  apply Byte.byte_dec_bl in E. subst a. simpl. now f_equal.
Qed.

Lemma leading_rest (c : byte) (b : list byte) :
  hd_error (skipn (count_leading c b) b) <> Some c.
Proof.
  induction b as [|a b IH]; [discriminate|]. simpl.
  destruct (Byte.eqb a c) eqn:E; [exact IH|].
  simpl. intros [= ->]. apply Byte.eqb_false in E. now apply E.
Qed.

Lemma count_leading_app (c : byte) (k : nat) (l : list byte) :
  hd_error l <> Some c ->
  count_leading c (repeat c k ++ l) = k.
Proof.
  intros H. induction k as [|k IH]; simpl.
  - destruct l as [|a l]; [reflexivity|]. simpl.
    destruct (Byte.eqb a c) eqn:E; [|reflexivity].
    apply Byte.byte_dec_bl in E. subst a. now elim H.
  - rewrite (Byte.byte_dec_lb eq_refl). now f_equal.
Qed.

Lemma last_rev_hd {A} (l : list A) (d : A) :
  last (rev l) d = hd d l.
Proof.
  destruct l as [|a l]; [reflexivity|]. simpl. apply last_last.
Qed.

(** [Bytes] undoes [SetBytes] up to the leading zero bytes. *)
Lemma Bytes_SetBytes (b : list byte) :
  big.Bytes (big.SetBytes b) = skipn (count_leading x00 b) b.
Proof.
  unfold big.Bytes.
  set (z := count_leading x00 b). set (b' := skipn z b).
  assert (Hb : b = repeat x00 z ++ b') by apply leading_split.
  assert (Hd : hd_error b' <> Some x00) by apply leading_rest.
  assert (Hv : big.SetBytes b = from_digits 256 (rev (map Byte.to_N b'))).
  { rewrite SetBytes_from_digits. rewrite Hb at 1.
    rewrite map_app, rev_app_distr, map_repeat, rev_repeat.
    change (Byte.to_N x00) with 0.
    apply from_digits_app_zeros; lia. }
  rewrite Hv, digits_from_digits.
  - rewrite <- map_rev, rev_involutive, map_map.
    rewrite <- (map_id b') at 2. apply map_ext. apply byte_of_N_to_N.
  - lia.
  - apply Forall_rev, Forall_map, Forall_forall. intros. apply to_N_lt.
  - unfold normal. rewrite last_rev_hd.
    destruct b' as [|c b'']; simpl; [discriminate|].
    intros E. apply Hd. simpl. f_equal.
    apply to_N_inj. now rewrite E.
  - rewrite <- Hv. apply size_nat_bound.
Qed.

Lemma b58_chr_nat (n : nat) :
  (n < 58)%nat -> b58 (nth n alphabet x00) = N.of_nat n.
Proof.
  intros H. do 58 (destruct n as [|n]; [reflexivity|]). lia.
Qed.

Lemma b58_chr (d : N) : d < 58 -> b58 (chr d) = d.
Proof.
  intros H. unfold chr. rewrite b58_chr_nat by lia. lia.
Qed.

Lemma chr_in_alphabet (d : N) : d < 58 -> In (chr d) alphabet.
Proof. intros H. apply nth_In. change (length alphabet) with 58%nat. lia. Qed.

Lemma chr_zero (d : N) : d < 58 -> chr d = alphabetIdx0 -> d = 0.
Proof.
  intros H E. rewrite <- (b58_chr H), E. reflexivity.
Qed.

Lemma encode_loop_digits (fuel : nat) (x : N) (answer : list byte) :
  encode_loop fuel x answer = answer ++ map chr (big.digits 58 fuel x).
Proof.
  revert x answer. induction fuel as [|fuel IH]; intros x answer; simpl.
  - now rewrite app_nil_r.
  - destruct (0 <? x); simpl; [|now rewrite app_nil_r].
    rewrite IH, <- app_assoc. reflexivity.
Qed.

(** The fuel given to the division loop by [Encode] is never exhausted:
    more fuel does not change the result. *)
Lemma encode_loop_fuel_irrelevant (fuel : nat) (x : N)
  (answer : list byte) :
  x < 2 ^ N.of_nat fuel ->
  encode_loop fuel x answer = encode_loop (N.size_nat x) x answer.
Proof.
  intros H. rewrite !encode_loop_digits. do 2 f_equal.
  apply digits_fuel_irrelevant; [lia|exact H|apply size_nat_bound].
Qed.

Lemma encode_zeros_repeat (b answer : list byte) :
  encode_zeros b answer
  = answer ++ repeat alphabetIdx0 (count_leading x00 b).
Proof.
  revert answer. induction b as [|i b IH]; intros answer; simpl.
  - now rewrite app_nil_r.
  - destruct (Byte.eqb i x00); simpl; [|now rewrite app_nil_r].
    rewrite IH, <- app_assoc. reflexivity.
Qed.

(** The shape of an encoding: one ['1'] per leading zero byte, then the
    base58 digits of the number, most significant first. *)
Lemma Encode_shape (b : list byte) :
  Encode b = repeat alphabetIdx0 (count_leading x00 b)
             ++ rev (map chr (digits58 b)).
Proof.
  unfold Encode. rewrite encode_zeros_repeat, encode_loop_digits. simpl app.
  now rewrite rev_app_distr, rev_repeat.
Qed.

Lemma Encode_alphabet (b : list byte) :
  Forall (fun c => In c alphabet) (Encode b).
Proof.
  rewrite Encode_shape. apply Forall_app. split.
  - apply Forall_forall. intros c H. apply repeat_spec in H. subst c.
    now left.
  - apply Forall_rev, Forall_map.
    eapply Forall_impl; [|apply digits_lt; lia].
    intros d H. now apply chr_in_alphabet.
Qed.

Lemma decode_loop_digits (ds : list N) (rest : list byte) (a j : N) :
  Forall (fun d => d < 58) ds ->
  decode_loop (map chr ds ++ rest) a j
  = decode_loop rest (a + j * from_digits 58 ds)
      (j * 58 ^ N.of_nat (length ds)).
Proof.
  intros H. revert a j. induction H as [|d ds Hd Hds IH]; intros a j.
  - simpl. f_equal; lia.
  - cbn [map app decode_loop from_digits length]. rewrite (b58_chr Hd).
    destruct (N.eqb_spec d 255); [lia|].
    rewrite IH, Nat2N.inj_succ, N.pow_succ_r'. f_equal; lia.
Qed.

Lemma decode_loop_ones (k : nat) (a j : N) :
  decode_loop (repeat alphabetIdx0 k) a j = Some a.
Proof.
  revert a j. induction k as [|k IH]; intros a j; [reflexivity|].
  cbn [repeat decode_loop]. change (b58 alphabetIdx0) with 0. simpl N.eqb.
  cbv iota. rewrite IH. f_equal. lia.
Qed.

Lemma decode_loop_Encode (b : list byte) :
  decode_loop (rev (Encode b)) 0 1 = Some (big.SetBytes b).
Proof.
  rewrite Encode_shape, rev_app_distr, rev_involutive, rev_repeat.
  rewrite decode_loop_digits by (apply digits_lt; lia).
  rewrite decode_loop_ones. f_equal. unfold digits58.
  rewrite digits_value; [lia|lia|apply size_nat_bound].
Qed.

Lemma count_leading_Encode (b : list byte) :
  count_leading alphabetIdx0 (Encode b) = count_leading x00 b.
Proof.
  rewrite Encode_shape. apply count_leading_app.
  assert (Hn : normal (digits58 b))
    by (apply digits_normal; [lia|apply size_nat_bound]).
  assert (Hl : Forall (fun d => d < 58) (digits58 b))
    by (apply digits_lt; lia).
  destruct (digits58 b) as [|d ds] using rev_ind; [discriminate|].
  rewrite map_app, rev_app_distr. simpl. intros [= E].
  apply Forall_app in Hl. destruct Hl as [_ Hl]. inversion Hl; subst.
  unfold normal in Hn. rewrite last_last in Hn.
  apply Hn. now apply chr_zero.
Qed.

Lemma copy_same_length {A} (dst src : list A) :
  length dst = length src -> copy dst src = src.
Proof.
  intros H. unfold copy.
  rewrite H, firstn_all, <- H, skipn_all. apply app_nil_r.
Qed.

(** Decoding an encoding gives the bytes back, for every byte slice. *)
Lemma Decode_Encode (b : list byte) : Decode (Encode b) = b.
Proof.
  unfold Decode.
  rewrite decode_loop_Encode, count_leading_Encode, Bytes_SetBytes.
  set (z := count_leading x00 b). set (b' := skipn z b).
  unfold zeros. rewrite repeat_app.
  rewrite firstn_app, skipn_app, repeat_length, Nat.sub_diag.
  rewrite firstn_all2, skipn_all2 by (rewrite repeat_length; lia).
  rewrite firstn_O, skipn_O, app_nil_r. simpl app.
  rewrite copy_same_length by apply repeat_length.
  symmetry. apply leading_split.
Qed.

End Base58Facts.

(** ** The recovery-key codec *)

Section Codec.

Lemma copy_length {A} (dst src : list A) :
  length (copy dst src) = length dst.
Proof.
  unfold copy. rewrite length_app, length_firstn, length_skipn. lia.
Qed.

Lemma slice_all {A} (l : list A) : slice l 0 (length l) = Ok l.
Proof.
  unfold slice. rewrite Nat.leb_refl. simpl.
  now rewrite Nat.sub_0_r, firstn_all.
Qed.

(** The array handed to [base58.Encode], for a key of any length. *)
Lemma inputBytes_of_eq (key : list byte) :
  let body := copy (zeros 32) key in
  inputBytes_of key
  = Ok (x8b :: x01 :: body ++ [parity_loop (x8b :: x01 :: body)]).
Proof.
  intros body. unfold inputBytes_of.
  change (slice (zeros 35) 2 34) with (Ok (zeros 32)).
  rewrite slice_all. cbn [bind]. fold body.
  assert (H : length body = 32%nat) by apply copy_length.
  explode body H. reflexivity.
Qed.

Lemma DecodeBase58RecoveryKey_eq (recoveryKey : gostring) :
  DecodeBase58RecoveryKey recoveryKey
  = Ok (if valid_payload (payload_of recoveryKey)
        then Some (firstn 32 (skipn 2 (payload_of recoveryKey)))
        else None).
Proof.
  unfold DecodeBase58RecoveryKey, valid_payload, payload_of.
  set (decoded := base58.Decode _). clearbody decoded.
  change (AESCTRKeyLength + 3)%nat with 35%nat.
  destruct (Nat.eqb_spec (length decoded) 35) as [H|H]; [|reflexivity].
  explode decoded H.
  cbn [negb slice Nat.leb length andb firstn skipn Nat.sub bind index
       nth_error nth].
  destruct (Byte.eqb (parity_loop _) _); [|reflexivity].
  cbn [negb andb]. destruct (Byte.eqb _ x8b); [|reflexivity].
  cbn [negb andb]. destruct (Byte.eqb _ x01); reflexivity.
Qed.

Lemma valid_payload_iff (d : list byte) :
  valid_payload d = true <->
  length d = 35%nat /\ parity_loop (firstn 34 d) = nth 34 d x00
  /\ nth 0 d x00 = x8b /\ nth 1 d x00 = x01.
Proof.
  unfold valid_payload. rewrite !andb_true_iff, Nat.eqb_eq.
  split.
  - intros [[[H1 H2] H3] H4]. repeat split; try assumption;
      now apply Byte.byte_dec_bl.
  - intros (H1 & H2 & H3 & H4). repeat split; try assumption;
      now apply Byte.byte_dec_lb.
Qed.

End Codec.

(** ** Spacing *)

Section Spacing.

Lemma ReplaceAll_app (s t : gostring) (old : byte) (new : gostring) :
  strings.ReplaceAll (s ++ t) old new
  = strings.ReplaceAll s old new ++ strings.ReplaceAll t old new.
Proof. apply flat_map_app. Qed.

Lemma ReplaceAll_absent (s : gostring) (old : byte) (new : gostring) :
  Forall (fun c => c <> old) s -> strings.ReplaceAll s old new = s.
Proof.
  induction 1 as [|c s Hc Hs IH]; [reflexivity|].
  unfold strings.ReplaceAll in *. simpl. rewrite IH.
  destruct (Byte.eqb c old) eqn:E; [|reflexivity].
  apply Byte.byte_dec_bl in E. contradiction.
Qed.

Lemma strip_spacing_loop (i : nat) (s acc : gostring) :
  Forall (fun c => c <> " "%byte) s ->
  strings.ReplaceAll (spacing_loop i s acc) " "%byte []
  = strings.ReplaceAll acc " "%byte [] ++ s.
Proof.
  intros H. revert i acc. induction H as [|c s Hc Hs IH]; intros i acc.
  - simpl. now rewrite app_nil_r.
  - cbn [spacing_loop]. rewrite IH, ReplaceAll_app.
    rewrite (ReplaceAll_absent (s := [c]))
      by (constructor; [exact Hc|constructor]).
    destruct ((0 <? i)%nat && (i mod 4 =? 0)%nat).
    + rewrite ReplaceAll_app. change (strings.ReplaceAll [" "%byte] " "%byte [])
        with (@nil byte). now rewrite app_nil_r, <- app_assoc.
    + now rewrite <- app_assoc.
Qed.

Lemma alphabet_no_space : ~ In " "%byte base58.alphabet.
Proof.
  intros H. cbv in H.
  repeat (destruct H as [H|H]; [discriminate H|]). exact H.
Qed.

Lemma Encode_no_space (b : list byte) :
  Forall (fun c => c <> " "%byte) (base58.Encode b).
Proof.
  eapply Forall_impl; [|apply Encode_alphabet].
  intros c H ->. now apply alphabet_no_space.
Qed.

Lemma mod4_rem (k r : nat) : (r < 4)%nat -> ((4 * k + r) mod 4 = r)%nat.
Proof.
  intros H. rewrite Nat.add_comm, Nat.mul_comm, Nat.Div0.mod_add.
  now apply Nat.mod_small.
Qed.

(** One step of the loop at an index that is not a positive multiple of
    four, and one at an index that is. *)
Lemma spacing_loop_plain (k r : nat) (c : byte) (s acc : gostring) :
  (r < 4)%nat -> (k = 0 \/ 0 < r)%nat ->
  spacing_loop (4 * k + r) (c :: s) acc
  = spacing_loop (S (4 * k + r)) s (acc ++ [c]).
Proof.
  intros Hr H. cbn [spacing_loop]. rewrite (mod4_rem k Hr).
  destruct (Nat.ltb_spec 0 (4 * k + r)), (Nat.eqb_spec r 0);
    simpl; try reflexivity; lia.
Qed.

Lemma spacing_loop_space (k : nat) (c : byte) (s acc : gostring) :
  (0 < k)%nat ->
  spacing_loop (4 * k + 0) (c :: s) acc
  = spacing_loop (S (4 * k + 0)) s ((acc ++ [" "%byte]) ++ [c]).
Proof.
  intros H. cbn [spacing_loop]. rewrite (mod4_rem k (r := 0)) by lia.
  destruct (Nat.ltb_spec 0 (4 * k + 0)); simpl; [reflexivity|lia].
Qed.

Lemma grouped_cons4 (c0 c1 c2 c3 : byte) (s : gostring) :
  s <> [] ->
  grouped (c0 :: c1 :: c2 :: c3 :: s)
  = c0 :: c1 :: c2 :: c3 :: " "%byte :: grouped s.
Proof. destruct s; [congruence|reflexivity]. Qed.

(** The loop, entered at a multiple of four with a non-empty rest, writes
    the grouped rest, preceded by a space unless it is at the start. *)
Lemma spacing_loop_grouped (n : nat) :
  forall (s acc : gostring) (k : nat), (length s <= n)%nat ->
  spacing_loop (4 * k + 0) s acc
  = acc ++ (if (0 <? k)%nat then match s with [] => [] | _ => [" "%byte] end
            else []) ++ grouped s.
Proof.
  induction n as [n IH] using lt_wf_ind. intros s acc k Hn.
  destruct s as [|c0 s].
  { simpl. destruct (0 <? k)%nat; now rewrite app_nil_r. }
  assert (E0 : spacing_loop (4 * k + 0) (c0 :: s) acc
               = spacing_loop (4 * k + 1) s
                   ((acc ++ (if (0 <? k)%nat then [" "%byte] else []))
                      ++ [c0])).
  { replace (4 * k + 1)%nat with (S (4 * k + 0)) by lia.
    destruct (Nat.ltb_spec 0 k).
    - apply spacing_loop_space; lia.
    - rewrite app_nil_r. apply spacing_loop_plain; lia. }
  rewrite E0. clear E0.
  set (acc0 := acc ++ (if (0 <? k)%nat then [" "%byte] else [])).
  assert (Eacc : forall t, acc ++ (if (0 <? k)%nat then [" "%byte] else [])
                             ++ t = acc0 ++ t)
    by (intros t; unfold acc0; now rewrite <- app_assoc).
  rewrite Eacc. clear Eacc. clearbody acc0.
  destruct s as [|c1 s]; [simpl; rewrite <- ?app_assoc; reflexivity|].
  rewrite spacing_loop_plain by lia.
  replace (S (4 * k + 1)) with (4 * k + 2)%nat by lia.
  destruct s as [|c2 s]; [simpl; rewrite <- ?app_assoc; reflexivity|].
  rewrite spacing_loop_plain by lia.
  replace (S (4 * k + 2)) with (4 * k + 3)%nat by lia.
  destruct s as [|c3 s]; [simpl; rewrite <- ?app_assoc; reflexivity|].
  rewrite spacing_loop_plain by lia.
  replace (S (4 * k + 3)) with (4 * S k + 0)%nat by lia.
  simpl in Hn. rewrite (IH (length s)) by lia.
  destruct s as [|c4 s].
  - simpl. rewrite <- ?app_assoc. reflexivity.
  - rewrite grouped_cons4 by discriminate.
    change (0 <? S k)%nat with true. cbv iota.
    rewrite <- !app_assoc. reflexivity.
Qed.

Lemma spacing_loop_eq_grouped (s : gostring) :
  spacing_loop 0 s [] = grouped s.
Proof.
  exact (spacing_loop_grouped (n := length s) s [] 0 (le_n _)).
Qed.

End Spacing.

(** ** Parity *)

Section Parity.

Lemma fold_bxor_acc (l : list byte) (x : byte) :
  fold_left (fun parity c => bxor parity c) l x
  = bxor x (fold_left (fun parity c => bxor parity c) l x00).
Proof.
  revert x. induction l as [|c l IH]; intros x; simpl.
  - now rewrite bxor_0_r.
  - rewrite IH, (IH (bxor x00 c)), bxor_0_l. apply bxor_assoc.
Qed.

Lemma parity_loop_cons (c : byte) (l : list byte) :
  parity_loop (c :: l) = bxor c (parity_loop l).
Proof.
  unfold parity_loop. simpl. now rewrite fold_bxor_acc, bxor_0_l.
Qed.

(** Two byte strings of the same length that differ in exactly one
    position have different parities. *)
Lemma parity_loop_differ (l l' : list byte) (i : nat) :
  length l = length l' -> (i < length l)%nat ->
  nth i l x00 <> nth i l' x00 ->
  (forall j, j <> i -> nth j l x00 = nth j l' x00) ->
  parity_loop l <> parity_loop l'.
Proof.
  revert l' i. induction l as [|a l IH]; intros [|a' l'] i Hlen Hi Hne Heq;
    try discriminate; simpl in Hi; [lia|].
  rewrite !parity_loop_cons. destruct i as [|i].
  - assert (E : l = l').
    { apply (nth_ext l l' x00 x00); [now injection Hlen|].
      intros j _. apply (Heq (S j)). discriminate. }
    subst l'. simpl in Hne. intros H. apply Hne.
    rewrite (bxor_comm a), (bxor_comm a') in H. now apply bxor_inj_l in H.
  - pose proof (Heq 0%nat ltac:(discriminate)) as E. simpl in E. subst a'.
    intros H. apply bxor_inj_l in H. revert H.
    apply (IH l' i); [now injection Hlen|lia|exact Hne|].
    intros j Hj. apply (Heq (S j)). congruence.
Qed.

(** The loop computes the XOR of the bytes it ranges over: every bit of
    its result is the parity of that bit over the bytes. *)
Lemma parity_loop_is_xor (l : list byte) : is_xor_of (parity_loop l) l.
Proof.
  intros j. induction l as [|c l IH]; [apply N.bits_0|].
  rewrite parity_loop_cons, to_N_bxor, N.lxor_spec, IH.
  unfold odd_bit. cbn [filter].
  destruct (N.testbit (Byte.to_N c) j); cbn [length xorb];
    [|reflexivity].
  now rewrite Nat.odd_succ, <- Nat.negb_odd.
Qed.

(** A byte is determined by its bits. *)
Lemma is_xor_of_unique (x y : byte) (l : list byte) :
  is_xor_of x l -> is_xor_of y l -> x = y.
Proof.
  intros Hx Hy. apply to_N_inj, N.bits_inj. intros j.
  now rewrite Hx, Hy.
Qed.

End Parity.

(** ** Encoding and decoding recovery keys *)

Section RecoveryKey.

Lemma inputBytes_of_framed (key : list byte) :
  inputBytes_of key = Ok (framed (copy (zeros 32) key)).
Proof. apply inputBytes_of_eq. Qed.

Lemma EncodeBase58RecoveryKey_eq (key : list byte) :
  EncodeBase58RecoveryKey key
  = Ok (spacing_loop 0 (base58.Encode (framed (copy (zeros 32) key))) []).
Proof.
  unfold EncodeBase58RecoveryKey.
  rewrite inputBytes_of_framed. cbn [bind]. now rewrite slice_all.
Qed.

Lemma framed_layout (body : list byte) :
  length body = 32%nat ->
  length (framed body) = 35%nat
  /\ nth_error (framed body) 0 = Some x8b
  /\ nth_error (framed body) 1 = Some x01
  /\ firstn 32 (skipn 2 (framed body)) = body
  /\ nth_error (framed body) 34 = Some (parity_loop (firstn 34 (framed body)))
  /\ valid_payload (framed body) = true.
Proof.
  intros H. unfold framed, valid_payload. explode body H.
  cbn [length app firstn skipn nth nth_error Nat.eqb andb].
  rewrite !(Byte.byte_dec_lb eq_refl). repeat split.
Qed.

Lemma payload_of_spaced (b : list byte) :
  payload_of (spacing_loop 0 (base58.Encode b) []) = b.
Proof.
  unfold payload_of.
  rewrite strip_spacing_loop by apply Encode_no_space.
  apply Decode_Encode.
Qed.

Lemma skipn_repeat {A} (x : A) (k n : nat) :
  skipn k (repeat x n) = repeat x (n - k).
Proof.
  revert n. induction k as [|k IH]; intros n.
  - now rewrite Nat.sub_0_r.
  - destruct n as [|n]; [reflexivity|]. simpl. apply IH.
Qed.

Lemma copy_zeros (n : nat) (key : list byte) :
  copy (zeros n) key = firstn n key ++ zeros (n - length key).
Proof.
  unfold copy, zeros. rewrite repeat_length. f_equal.
  apply skipn_repeat.
Qed.

End RecoveryKey.

(** ** Properties of the recovery-key codec *)

Section RecoveryKeyClaims.

(** C1.  Round trip: for every 32-byte secret [s], the encoder returns a
    text, and decoding that text returns [s]. *)
Theorem recovery_key_roundtrip (s : list byte) :
  length s = 32%nat ->
  exists text,
    EncodeBase58RecoveryKey s = Ok text
    /\ DecodeBase58RecoveryKey text = Ok (Some s).
Proof.
  intros H. eexists. split; [apply EncodeBase58RecoveryKey_eq|].
  rewrite DecodeBase58RecoveryKey_eq, payload_of_spaced.
  rewrite copy_same_length by (rewrite H; reflexivity).
  destruct (framed_layout _ H) as (_ & _ & _ & Hs & _ & Hv).
  now rewrite Hv, Hs.
Qed.

Lemma recovery_key_roundtrip_witness :
  length sample.secret = 32%nat
  /\ exists text,
       EncodeBase58RecoveryKey sample.secret = Ok text
       /\ DecodeBase58RecoveryKey text = Ok (Some sample.secret).
Proof.
  split; [reflexivity|].
  apply (recovery_key_roundtrip sample.secret). reflexivity.
Defined.


(** C4.  Payload layout: for every 32-byte secret [s] the encoder
    base58-encodes a 35-byte buffer whose byte 0 is [0x8B], byte 1 is
    [0x01], bytes 2..33 are [s] and byte 34 is the XOR of bytes 0..33, the
    XOR being read bit by bit: a bit of byte 34 is set exactly when an odd
    number of the bytes 0..33 have that bit set.  For the all-zero secret
    the buffer starts with [0x8B], [0x01] and decoding the encoding returns
    the all-zero secret. *)
Theorem EncodeBase58RecoveryKey_payload (s : list byte) :
  length s = 32%nat ->
  exists inputBytes text parity,
    inputBytes_of s = Ok inputBytes
    /\ EncodeBase58RecoveryKey s = Ok text
    /\ text = spacing_loop 0 (base58.Encode inputBytes) []
    /\ length inputBytes = 35%nat
    /\ nth_error inputBytes 0 = Some x8b
    /\ nth_error inputBytes 1 = Some x01
    /\ firstn 32 (skipn 2 inputBytes) = s
    /\ nth_error inputBytes 34 = Some parity
    /\ is_xor_of parity (firstn 34 inputBytes)
    /\ (s = zeros 32 ->
        firstn 2 inputBytes = [x8b; x01]
        /\ DecodeBase58RecoveryKey text = Ok (Some (zeros 32))).
Proof.
  intros H.
  exists (framed s), (spacing_loop 0 (base58.Encode (framed s)) []),
    (parity_loop (firstn 34 (framed s))).
  pose proof (inputBytes_of_framed s) as E1.
  pose proof (EncodeBase58RecoveryKey_eq s) as E2.
  rewrite copy_same_length in E1, E2 by (rewrite H; reflexivity).
  destruct (framed_layout _ H) as (L & B0 & B1 & Hs & P & Hv).
  do 8 (split; [assumption || reflexivity|]).
  split; [apply parity_loop_is_xor|].
  intros ->. split; [reflexivity|].
  rewrite DecodeBase58RecoveryKey_eq, payload_of_spaced.
  now rewrite Hv, Hs.
Qed.

Lemma EncodeBase58RecoveryKey_payload_witness :
  length (zeros 32) = 32%nat
  /\ exists inputBytes text parity,
       inputBytes_of (zeros 32) = Ok inputBytes
       /\ EncodeBase58RecoveryKey (zeros 32) = Ok text
       /\ text = spacing_loop 0 (base58.Encode inputBytes) []
       /\ length inputBytes = 35%nat
       /\ nth_error inputBytes 0 = Some x8b
       /\ nth_error inputBytes 1 = Some x01
       /\ firstn 32 (skipn 2 inputBytes) = zeros 32
       /\ nth_error inputBytes 34 = Some parity
       /\ is_xor_of parity (firstn 34 inputBytes)
       /\ (zeros 32 = zeros 32 ->
           firstn 2 inputBytes = [x8b; x01]
           /\ DecodeBase58RecoveryKey text = Ok (Some (zeros 32))).
Proof.
  split; [reflexivity|].
  apply (EncodeBase58RecoveryKey_payload (zeros 32)). reflexivity.
Defined.

(** C5.  Tamper detection: when a text is accepted by the decoder, every
    text whose 35-byte payload differs from the accepted payload in exactly
    one byte is reported invalid. *)
Theorem DecodeBase58RecoveryKey_detects_one_byte
  (text text' : gostring) (secret : list byte) :
  DecodeBase58RecoveryKey text = Ok (Some secret) ->
  differ_in_one_byte (payload_of text) (payload_of text') ->
  DecodeBase58RecoveryKey text' = Ok None.
Proof.
  rewrite !DecodeBase58RecoveryKey_eq.
  set (p := payload_of text). set (p' := payload_of text').
  intros Hok (Hlen & i & Hi & Hne & Heq).
  destruct (valid_payload p) eqn:V; [clear Hok|discriminate Hok].
  destruct (valid_payload p') eqn:V'; [exfalso|reflexivity].
  apply valid_payload_iff in V, V'.
  destruct V as (L & P & _), V' as (L' & P' & _).
  destruct (Nat.eq_dec i 34) as [->|Hi34].
  - apply Hne. rewrite <- P, <- P'. f_equal.
    apply (nth_ext _ _ x00 x00); [rewrite !length_firstn; lia|].
    intros j Hj. rewrite length_firstn in Hj. rewrite !nth_firstn.
    destruct (j <? 34)%nat; [apply Heq; lia|reflexivity].
  - apply (@parity_loop_differ (firstn 34 p) (firstn 34 p') i).
    + rewrite !length_firstn. lia.
    + rewrite length_firstn. lia.
    + rewrite !nth_firstn.
      destruct (Nat.ltb_spec i 34); [exact Hne|lia].
    + intros j Hj. rewrite !nth_firstn.
      destruct (j <? 34)%nat; [now apply Heq|reflexivity].
    + rewrite P, P'. apply Heq. lia.
Qed.

Lemma DecodeBase58RecoveryKey_detects_one_byte_witness :
  DecodeBase58RecoveryKey sample.accepted_text = Ok (Some (zeros 32))
  /\ differ_in_one_byte (payload_of sample.accepted_text)
       (payload_of sample.tampered_text)
  /\ DecodeBase58RecoveryKey sample.tampered_text = Ok None.
Proof.
  assert (H1 : DecodeBase58RecoveryKey sample.accepted_text
               = Ok (Some (zeros 32))) by (vm_compute; reflexivity).
  assert (H2 : differ_in_one_byte (payload_of sample.accepted_text)
                 (payload_of sample.tampered_text)).
  { split; [vm_compute; reflexivity|]. exists 7%nat.
    split; [vm_compute; lia|]. split; [vm_compute; discriminate|].
    intros j Hj.
    do 36 (destruct j as [|j]; [vm_compute; congruence|]).
    vm_compute. now destruct j. }
  split; [exact H1|]. split; [exact H2|].
  exact (DecodeBase58RecoveryKey_detects_one_byte
           sample.accepted_text sample.tampered_text H1 H2).
Defined.

(** C7.  Spacing: for every 32-byte secret the returned string is the
    base58 encoding of the 35-byte payload with a single space before every
    fourth character (characters 0-3, a space, four more, and so on), and
    removing all spaces from it gives exactly that base58 string. *)
Theorem EncodeBase58RecoveryKey_spacing (s : list byte) :
  length s = 32%nat ->
  exists inputBytes text,
    inputBytes_of s = Ok inputBytes
    /\ EncodeBase58RecoveryKey s = Ok text
    /\ text = grouped (base58.Encode inputBytes)
    /\ strings.ReplaceAll text " "%byte [] = base58.Encode inputBytes.
Proof.
  intros H. pose proof (inputBytes_of_framed s) as E1.
  pose proof (EncodeBase58RecoveryKey_eq s) as E2.
  rewrite copy_same_length in E1, E2 by (rewrite H; reflexivity).
  exists (framed s), (spacing_loop 0 (base58.Encode (framed s)) []).
  split; [exact E1|]. split; [exact E2|].
  split; [apply spacing_loop_eq_grouped|].
  rewrite strip_spacing_loop by apply Encode_no_space. reflexivity.
Qed.

Lemma EncodeBase58RecoveryKey_spacing_witness :
  length sample.secret = 32%nat
  /\ exists inputBytes text,
       inputBytes_of sample.secret = Ok inputBytes
       /\ EncodeBase58RecoveryKey sample.secret = Ok text
       /\ text = grouped (base58.Encode inputBytes)
       /\ strings.ReplaceAll text " "%byte [] = base58.Encode inputBytes.
Proof.
  split; [reflexivity|].
  apply (EncodeBase58RecoveryKey_spacing sample.secret). reflexivity.
Defined.

(** C10.  Totality: for a key of any length the encoder returns without
    panicking; bytes 2..33 of the payload are the first 32 bytes of the key
    followed by zero bytes up to 32, so a shorter key is padded with zeros
    and only the first 32 bytes of a longer key are encoded. *)
Theorem EncodeBase58RecoveryKey_total (key : list byte) :
  exists inputBytes text,
    inputBytes_of key = Ok inputBytes
    /\ EncodeBase58RecoveryKey key = Ok text
    /\ text = spacing_loop 0 (base58.Encode inputBytes) []
    /\ length inputBytes = 35%nat
    /\ firstn 32 (skipn 2 inputBytes)
       = firstn 32 key ++ zeros (32 - length key)
    /\ ((length key <= 32)%nat ->
        firstn 32 (skipn 2 inputBytes) = key ++ zeros (32 - length key))
    /\ ((32 <= length key)%nat ->
        firstn 32 (skipn 2 inputBytes) = firstn 32 key).
Proof.
  exists (framed (copy (zeros 32) key)). eexists.
  split; [apply inputBytes_of_framed|].
  split; [apply EncodeBase58RecoveryKey_eq|]. split; [reflexivity|].
  assert (H : length (copy (zeros 32) key) = 32%nat) by apply copy_length.
  destruct (framed_layout _ H) as (L & _ & _ & Hs & _).
  rewrite Hs. split; [exact L|]. rewrite copy_zeros.
  split; [reflexivity|]. split.
  - intros Hk. now rewrite firstn_all2.
  - intros Hk. replace (32 - length key)%nat with 0%nat by lia.
    apply app_nil_r.
Qed.

End RecoveryKeyClaims.

(** ** The CTR stream *)

Section CTR.
Import cipher.

Lemma xor_loop_length (src : list byte) :
  forall (x : ctr) (d : list byte) (x' : ctr),
    xor_loop x src = Ok (d, x') -> length d = length src /\ b x' = b x.
Proof.
  induction src as [|s src IH]; intros x d x' H; simpl in H.
  - injection H as <- <-. now split.
  - set (x1 := match out x with [] => refill x | _ :: _ => x end) in H.
    assert (Hb : b x1 = b x) by (unfold x1; now destruct (out x)).
    destruct (out x1) as [|k o]; [discriminate H|].
    destruct (xor_loop _ src) as [[d0 x0]| |] eqn:E; try discriminate H.
    simpl in H. injection H as <- <-.
    apply IH in E. simpl in E. destruct E as [E1 E2].
    split; [simpl; now f_equal|congruence].
Qed.

(** With a positive block size the loop always finishes. *)
Lemma xor_loop_returns (src : list byte) :
  forall x : ctr, (0 < BlockSize (b x))%nat ->
    exists d x', xor_loop x src = Ok (d, x').
Proof.
  induction src as [|s src IH]; intros x Hbs; simpl.
  - now exists [], x.
  - set (x1 := match out x with [] => refill x | _ :: _ => x end).
    assert (Hb : b x1 = b x) by (unfold x1; now destruct (out x)).
    assert (Ho : out x1 <> []).
    { unfold x1. destruct (out x) eqn:E; [|congruence].
      unfold refill. cbn [out]. rewrite E. cbn [app]. intros E'.
      apply (f_equal (@length byte)) in E'.
      rewrite Encrypt_length in E'. simpl in E'. lia. }
    destruct (out x1) as [|k o]; [congruence|].
    destruct (IH {| b := b x1; counter := counter x1; out := o |})
      as (d & x' & E); [simpl; now rewrite Hb|].
    rewrite E. simpl. now eexists _, _.
Qed.

(** The key stream depends on the stream state only, so feeding the output
    back from the same state restores the input. *)
Lemma xor_loop_involutive (src : list byte) :
  forall (x : ctr) (d : list byte) (x' : ctr),
    xor_loop x src = Ok (d, x') -> xor_loop x d = Ok (src, x').
Proof.
  induction src as [|s src IH]; intros x d x' H; simpl in H.
  - injection H as <- <-. reflexivity.
  - set (x1 := match out x with [] => refill x | _ :: _ => x end) in H.
    destruct (out x1) as [|k o] eqn:Ho; [discriminate H|].
    destruct (xor_loop _ src) as [[d0 x0]| |] eqn:E; try discriminate H.
    simpl in H. injection H as <- <-.
    simpl. fold x1. rewrite Ho. rewrite (IH _ _ _ E). simpl.
    now rewrite bxor_cancel_r.
Qed.

Lemma XORKeyStream_fresh (x : ctr) (src d : list byte) (x' : ctr) :
  xor_loop x src = Ok (d, x') ->
  XORKeyStream x (zeros (length src)) src = Ok (d, x').
Proof.
  intros H. unfold XORKeyStream, zeros.
  rewrite repeat_length, Nat.ltb_irrefl, H. simpl.
  apply xor_loop_length in H. destruct H as [H _].
  now rewrite copy_same_length by (rewrite repeat_length; congruence).
Qed.

End CTR.

Section CipherClaims.

(** [aes.NewCipher] and what its documentation promises for a 32-byte
    key: an AES-256 block, whose block size is 16. *)
Variable aes_NewCipher : list byte -> option cipher.Block.
Hypothesis aes_256 :
  forall key, length key = 32%nat ->
    exists blk, aes_NewCipher key = Some blk
                /\ cipher.BlockSize blk = 16%nat.

(** C3.  For every 32-byte key, 16-byte IV and message of any length the
    cipher returns an output of the length of its input, and applying it
    again to that output with the same key and IV returns the message. *)
Theorem XorA256CTR_involutive (m key iv : list byte) :
  length key = 32%nat -> length iv = 16%nat ->
  exists c,
    XorA256CTR aes_NewCipher m key iv = Ok c
    /\ length c = length m
    /\ XorA256CTR aes_NewCipher c key iv = Ok m.
Proof.
  intros Hk Hiv. destruct (aes_256 key Hk) as (blk & Hblk & Hbs).
  unfold XorA256CTR. rewrite Hblk. unfold cipher.NewCTR.
  rewrite Hbs, Hiv. simpl negb. cbv iota. cbn [bind].
  set (x := {| cipher.b := blk; cipher.counter := iv; cipher.out := [] |}).
  destruct (xor_loop_returns m x) as (c & x' & E); [simpl; lia|].
  exists c. pose proof (xor_loop_length _ _ E) as [L _].
  rewrite (XORKeyStream_fresh _ _ E). cbn [bind].
  split; [reflexivity|]. split; [exact L|].
  apply xor_loop_involutive in E.
  now rewrite (XORKeyStream_fresh _ _ E).
Qed.

End CipherClaims.

(** ** The generators *)

Section Generators.

Variable Source : Type.
Variable next_byte : Source -> byte * Source.

Lemma draw_length (n : nat) (s : Source) :
  length (fst (rand.draw next_byte n s)) = n.
Proof.
  revert s. induction n as [|n IH]; intros s; simpl; [reflexivity|].
  destruct (next_byte s) as [c s1]. specialize (IH s1).
  destruct (rand.draw next_byte n s1) as [cs s2]. simpl in *. now f_equal.
Qed.

Lemma to_N_band (a c : byte) :
  Byte.to_N (band a c) = N.land (Byte.to_N a) (Byte.to_N c).
Proof.
  unfold band. rewrite to_N_byte_of_N. apply N.mod_small.
  apply lt_256_log2.
  destruct (N.eq_dec (N.land (Byte.to_N a) (Byte.to_N c)) 0) as [E|E];
    [now left|right].
  pose proof (N.log2_land (Byte.to_N a) (Byte.to_N c)) as L.
  pose proof (to_N_lt a) as Ha. apply lt_256_log2 in Ha.
  destruct Ha as [Ha|Ha]; [|lia].
  rewrite Ha, N.land_0_l in E. congruence.
Qed.

Lemma band_7f_high_bit (v : byte) :
  N.testbit (Byte.to_N (band v x7f)) 7 = false.
Proof.
  rewrite to_N_band, N.land_spec. apply andb_false_r.
Qed.

(** C8.  Counter-field layout: [GenAttachmentA256CTR] returns a 32-byte key
    and a 16-byte IV whose first 8 bytes are the 8 bytes drawn from the
    random source and whose bytes 8..15 are zero; [GenA256CTRIV] returns a
    16-byte IV in which bit 7 of byte 8 is cleared and every other bit is as
    drawn.  Neither panics. *)
Theorem generated_IV_layout (s : Source) :
  (exists key iv s',
      GenAttachmentA256CTR next_byte s = Ok (key, iv, s')
      /\ length key = 32%nat
      /\ length iv = 16%nat
      /\ firstn 8 iv
         = fst (rand.draw next_byte 8 (snd (rand.draw next_byte 32 s)))
      /\ skipn 8 iv = zeros 8)
  /\ (exists iv s' v,
         GenA256CTRIV next_byte s = Ok (iv, s')
         /\ length iv = 16%nat
         /\ nth_error iv 8 = Some v
         /\ N.testbit (Byte.to_N v) 7 = false
         /\ let drawn := fst (rand.draw next_byte 16 s) in
            v = band (nth 8 drawn x00) x7f
            /\ forall j, j <> 8%nat -> nth j iv x00 = nth j drawn x00).
Proof.
  split.
  - unfold GenAttachmentA256CTR, rand.Read.
    change (length (zeros AESCTRKeyLength)) with 32%nat.
    pose proof (draw_length 32 s) as Hk.
    destruct (rand.draw next_byte 32 s) as [key s1]. simpl in Hk.
    change (slice (zeros AESCTRIVLength) 0 8) with (Ok (zeros 8)).
    cbn [bind]. change (length (zeros 8)) with 8%nat.
    pose proof (draw_length 8 s1) as Hw. cbn [snd].
    destruct (rand.draw next_byte 8 s1) as [w s2]. simpl in Hw.
    exists key, (write_back (zeros AESCTRIVLength) 0 8 w), s2.
    split; [reflexivity|]. split; [exact Hk|].
    explode w Hw. repeat split.
  - unfold GenA256CTRIV, rand.Read.
    change (length (zeros AESCTRIVLength)) with 16%nat.
    pose proof (draw_length 16 s) as Hiv.
    destruct (rand.draw next_byte 16 s) as [iv s1]. simpl in Hiv.
    explode iv Hiv. cbn [index nth_error bind assign length Nat.ltb Nat.leb].
    eexists _, _, _. split; [reflexivity|].
    split; [reflexivity|]. split; [reflexivity|].
    split; [apply band_7f_high_bit|]. cbn [fst nth]. split; [reflexivity|].
    intros j Hj.
    do 17 (destruct j as [|j]; [reflexivity || congruence|]).
    now destruct j.
Qed.

End Generators.

(** ** Key derivation *)

Section Derivation.
Import hash.

Lemma HMAC_length (h : Hash) (key text : list byte) :
  length (rfc5869.HMAC h key text) = Size h.
Proof. unfold rfc5869.HMAC. now rewrite Sum_length. Qed.

(** Reading exactly one block from a reader whose buffer is empty
    produces the next block [HMAC(PRK, prev | info | counter)] and leaves
    the buffer empty. *)
Lemma Read_one_block (f : hkdf.hkdf) (p : list byte) :
  hkdf.buf f = [] ->
  hkdf.size f = Size (hkdf.expander f) ->
  length p = hkdf.size f ->
  (0 < hkdf.size f)%nat ->
  hkdf.counter f <> x00 ->
  let block :=
    Sum (hkdf.expander f)
      (hkdf.prev f ++ hkdf.info f ++ [hkdf.counter f]) in
  hkdf.Read f p
  = Ok (block, false,
        {| hkdf.expander := hkdf.expander f; hkdf.size := hkdf.size f;
           hkdf.info := hkdf.info f;
           hkdf.counter := bsucc (hkdf.counter f);
           hkdf.prev := block; hkdf.buf := [] |}).
Proof.
  destruct f as [e n info c prev buf]. cbn [hkdf.buf hkdf.size hkdf.expander
    hkdf.counter hkdf.prev hkdf.info].
  intros -> Hn Hp Hpos Hc. set (block := Sum e (prev ++ info ++ [c])).
  assert (Hb : length block = n) by (unfold block; now rewrite Sum_length).
  unfold hkdf.Read. cbn [hkdf.buf hkdf.size hkdf.expander hkdf.counter
    hkdf.prev hkdf.info length].
  rewrite Hp, Nat.min_0_r, Nat.sub_0_r. cbn [firstn Nat.add].
  assert (Hk : (1 <= N.to_nat ((255 - Byte.to_N c + 1) mod 256))%nat).
  { pose proof (to_N_lt c).
    assert (Byte.to_N c <> 0)
      by (intros E; apply Hc, to_N_inj; now rewrite E).
    lia. }
  destruct (Nat.ltb_spec (N.to_nat ((255 - Byte.to_N c + 1) mod 256) * n) n)
    as [Hlt|_]; [nia|].
  destruct n as [|n']; [lia|].
  cbn [hkdf.read_loop Nat.eqb hkdf.buf hkdf.size hkdf.expander hkdf.counter
    hkdf.prev hkdf.info app].
  fold block. rewrite Hb, Nat.min_id, Nat.sub_diag, firstn_all2 by lia.
  destruct n'; cbn [hkdf.read_loop Nat.eqb bind hkdf.buf hkdf.size
    hkdf.expander hkdf.counter hkdf.prev hkdf.info];
    rewrite skipn_all2 by lia; reflexivity.
Qed.

Variable sha256_New : Hash.
Hypothesis sha256_Size : Size sha256_New = 32%nat.

(** C6.  [DeriveKeysSHA256] is HKDF-SHA256 with a salt of 32 zero bytes
    and the label as info: the AES key is the first 32 bytes of the output
    key material and the HMAC key the next 32 bytes.  The result is a
    function of the secret and the label alone. *)
Theorem DeriveKeysSHA256_is_HKDF (key : list byte) (name : gostring) :
  let okm := rfc5869.HKDF sha256_New (zeros 32) key name 64 in
  exists aesKey hmacKey,
    DeriveKeysSHA256 sha256_New key name = Ok (aesKey, hmacKey)
    /\ aesKey = firstn 32 okm
    /\ hmacKey = firstn 32 (skipn 32 okm)
    /\ length aesKey = 32%nat
    /\ length hmacKey = 32%nat
    /\ forall key' name',
         key' = key -> name' = name ->
         DeriveKeysSHA256 sha256_New key' name' = Ok (aesKey, hmacKey).
Proof.
  intros okm.
  set (prk := rfc5869.Extract sha256_New (zeros 32) key).
  set (T1 := rfc5869.T sha256_New prk name 1).
  set (T2 := rfc5869.T sha256_New prk name 2).
  assert (L1 : length T1 = 32%nat)
    by (unfold T1; cbn [rfc5869.T]; now rewrite HMAC_length).
  assert (L2 : length T2 = 32%nat)
    by (unfold T2; cbn [rfc5869.T]; now rewrite HMAC_length).
  assert (Hokm : okm = T1 ++ T2).
  { unfold okm, rfc5869.HKDF, rfc5869.Expand. fold prk.
    rewrite sha256_Size. change ((64 + 32 - 1) / 32)%nat with 2%nat.
    cbn [seq flat_map]. fold T1 T2. rewrite app_nil_r.
    apply firstn_all2. rewrite length_app. lia. }
  assert (E : DeriveKeysSHA256 sha256_New key name = Ok (T1, T2)).
  { unfold DeriveKeysSHA256.
    unfold hkdf.New, hkdf.Expand.
    rewrite Read_one_block;
      [|reflexivity|reflexivity
       |cbn [hkdf.size hmac.New Size]; now rewrite sha256_Size
       |cbn [hkdf.size hmac.New Size]; rewrite sha256_Size; lia
       |discriminate].
    cbn [bind]. rewrite Read_one_block;
      [|reflexivity|reflexivity
       |cbn [hkdf.size hmac.New Size]; now rewrite sha256_Size
       |cbn [hkdf.size hmac.New Size]; rewrite sha256_Size; lia
       |discriminate].
    reflexivity. }
  exists T1, T2. split; [exact E|].
  rewrite Hokm, firstn_app, skipn_app, L1, Nat.sub_diag.
  rewrite firstn_all2, skipn_all2 by lia.
  rewrite firstn_O, app_nil_r. cbn [app skipn].
  rewrite firstn_all2 by lia.
  repeat split; try assumption. now intros ? ? -> ->.
Qed.

End Derivation.

(** ** Password-based derivation *)

Section PasswordDerivation.
Import hash.





Variable sha512_New : Hash.
Hypothesis sha512_Size : Size sha512_New = 64%nat.



End PasswordDerivation.

(** ** The model on known inputs *)

Section KnownAnswers.

(** The all-zero secret, written out. *)
Example EncodeBase58RecoveryKey_zero_secret :
  EncodeBase58RecoveryKey (zeros 32)
  = Ok (str "EsSz ygLv VP1b xF1C v7kE eBQx MxDP buG5 w25T L3b6 hfyG Kkrd").
Proof. vm_compute. reflexivity. Qed.

(** Its buffer: [0x8B ^ 0x01 = 0x8A] is the parity byte. *)
Example inputBytes_of_zero_secret :
  inputBytes_of (zeros 32) = Ok (x8b :: x01 :: zeros 32 ++ [x8a]).
Proof. vm_compute. reflexivity. Qed.

(** The example recovery key of the Matrix specification. *)
Example DecodeBase58RecoveryKey_example :
  DecodeBase58RecoveryKey
    (str "EsTc LW2K PGiF wKEA 3As5 g5c4 BXwk qeeJ ZJV8 Q9fu gUMN UE4d")
  = Ok (Some [x77; x07; x6d; x0a; x73; x18; xa5; x7d;
              x3c; x16; xc1; x72; x51; xb2; x66; x45;
              xdf; x4c; x2f; x87; xeb; xc0; x99; x2a;
              xb1; x77; xfb; xa5; x1d; xb9; x2c; x2a]).
Proof. vm_compute. reflexivity. Qed.

(** Spaces may appear anywhere, other white space may not. *)
Example DecodeBase58RecoveryKey_free_spacing :
  DecodeBase58RecoveryKey
    (str " EsSzygLvVP1bxF1Cv7kEeBQxMx   DPbuG5w25TL3b6hfyGKkrd ")
  = Ok (Some (zeros 32)).
Proof. vm_compute. reflexivity. Qed.

Example DecodeBase58RecoveryKey_tab :
  DecodeBase58RecoveryKey
    (x09 :: str "EsSz ygLv VP1b xF1C v7kE eBQx MxDP buG5 w25T L3b6 hfyG Kkrd")
  = Ok None.
Proof. vm_compute. reflexivity. Qed.

(** Wrong length, a character outside the alphabet, and the empty
    string. *)
Example DecodeBase58RecoveryKey_short :
  DecodeBase58RecoveryKey (str "EsSz ygLv VP1b") = Ok None.
Proof. vm_compute. reflexivity. Qed.

Example DecodeBase58RecoveryKey_bad_character :
  DecodeBase58RecoveryKey
    (str "EsSz ygLv VP1b xF1C v7kE eBQx MxDP buG5 w25T L3b6 hfyG Kkr0")
  = Ok None.
Proof. vm_compute. reflexivity. Qed.

Example DecodeBase58RecoveryKey_empty :
  DecodeBase58RecoveryKey [] = Ok None.
Proof. vm_compute. reflexivity. Qed.

(** Leading zero bytes become leading ['1'] characters. *)
Example base58_leading_zeros :
  base58.Encode (x00 :: x00 :: str "hello") = str "11Cn8eVZg"
  /\ base58.Decode (str "11Cn8eVZg") = x00 :: x00 :: str "hello".
Proof. split; vm_compute; reflexivity. Qed.

(** The CTR counter is a big-endian number that wraps. *)
Example increment_carry :
  cipher.increment [x00; x01; xff; xff] = [x00; x02; x00; x00]
  /\ cipher.increment [xff; xff] = [x00; x00].
Proof. split; reflexivity. Qed.

(** The generators on the sample source: byte 8 of the drawn IV is [0x9c]
    and loses its high bit; the attachment IV keeps eight zero bytes. *)
Example GenA256CTRIV_sample :
  GenA256CTRIV sample.next_byte 0
  = Ok ([x64; x0b; xb2; x59; x00; xa7; x4e; xf5;
         x1c; x43; xea; x91; x38; xdf; x86; x2d], 16).
Proof. vm_compute. reflexivity. Qed.

Example GenAttachmentA256CTR_sample :
  exists key,
    GenAttachmentA256CTR sample.next_byte 0
    = Ok (key,
          [x44; xeb; x92; x39; xe0; x87; x2e; xd5;
           x00; x00; x00; x00; x00; x00; x00; x00], 40)
    /\ length key = 32%nat.
Proof. eexists. split; vm_compute; reflexivity. Qed.

End KnownAnswers.

(** ** The parametric statements on the stand-ins *)

Section Instances.

Lemma sample_aes_256 (key : list byte) :
  length key = 32%nat ->
  exists blk, sample.NewCipher key = Some blk
              /\ cipher.BlockSize blk = 16%nat.
Proof.
  intros H. unfold sample.NewCipher. rewrite H. cbn [existsb Nat.eqb orb].
  now eexists.
Qed.

Lemma XorA256CTR_involutive_witness :
  length sample.secret = 32%nat /\ length sample.iv = 16%nat
  /\ exists c,
       XorA256CTR sample.NewCipher (str "attachment") sample.secret
         sample.iv = Ok c
       /\ length c = length (str "attachment")
       /\ XorA256CTR sample.NewCipher c sample.secret sample.iv
          = Ok (str "attachment").
Proof.
  split; [reflexivity|]. split; [reflexivity|].
  apply (XorA256CTR_involutive sample.NewCipher sample_aes_256
           (str "attachment") sample.secret sample.iv); reflexivity.
Defined.

Lemma DeriveKeysSHA256_is_HKDF_witness :
  hash.Size sample.sha256 = 32%nat
  /\ let okm :=
       rfc5869.HKDF sample.sha256 (zeros 32) sample.secret
         (str "m.megolm_backup.v1") 64 in
     exists aesKey hmacKey,
       DeriveKeysSHA256 sample.sha256 sample.secret (str "m.megolm_backup.v1")
       = Ok (aesKey, hmacKey)
       /\ aesKey = firstn 32 okm
       /\ hmacKey = firstn 32 (skipn 32 okm)
       /\ length aesKey = 32%nat
       /\ length hmacKey = 32%nat
       /\ forall key' name',
            key' = sample.secret -> name' = str "m.megolm_backup.v1" ->
            DeriveKeysSHA256 sample.sha256 key' name'
            = Ok (aesKey, hmacKey).
Proof.
  split; [reflexivity|].
  apply (DeriveKeysSHA256_is_HKDF sample.sha256 eq_refl sample.secret
           (str "m.megolm_backup.v1")).
Defined.



End Instances.

(* ================================================================== *)
(** * Part III: further properties of the package *)
(* ================================================================== *)

(** ** Base58 texts *)

Section Base58Texts.
Import base58.

Lemma find_index_absent (c : byte) (l : list byte) (i : N) :
  ~ In c l -> find_index c l i = 255.
Proof.
  revert i. induction l as [|a l IH]; intros i H; simpl; [reflexivity|].
  destruct (Byte.eqb a c) eqn:E.
  - apply Byte.byte_dec_bl in E. subst a. elim H. now left.
  - apply IH. intros Hin. apply H. now right.
Qed.

Lemma find_index_cases (c : byte) (l : list byte) (i : N) :
  find_index c l i = 255 \/ In c l.
Proof.
  revert i. induction l as [|a l IH]; intros i; simpl; [now left|].
  destruct (Byte.eqb a c) eqn:E.
  - apply Byte.byte_dec_bl in E. right. now left.
  - destruct (IH (i + 1)) as [H|H]; [now left|right; now right].
Qed.

(** A character of the alphabet is the character of its own digit. *)
Lemma b58_alphabet (c : byte) :
  In c alphabet -> b58 c < 58 /\ chr (b58 c) = c.
Proof.
  intros H. cbv [alphabet str list_byte_of_string] in H. simpl in H.
  repeat (destruct H as [<-|H]; [split; [reflexivity|reflexivity]|]).
  contradiction.
Qed.

Lemma decode_loop_alphabet (l : list byte) (a j : N) :
  Forall (fun c => In c alphabet) l ->
  decode_loop l a j = Some (a + j * from_digits 58 (map b58 l)).
Proof.
  intros H. revert a j. induction H as [|c l Hc Hl IH]; intros a j.
  - simpl. f_equal. lia.
  - cbn [decode_loop map from_digits].
    destruct (b58_alphabet Hc) as [Hlt _].
    destruct (N.eqb_spec (b58 c) 255); [lia|].
    rewrite IH. f_equal. lia.
Qed.

Lemma decode_loop_Some (l : list byte) (a j x : N) :
  decode_loop l a j = Some x -> Forall (fun c => In c alphabet) l.
Proof.
  revert a j. induction l as [|c l IH]; intros a j H; [constructor|].
  cbn [decode_loop] in H.
  destruct (N.eqb_spec (b58 c) 255) as [E|E]; [discriminate H|].
  constructor; [|now apply IH in H].
  destruct (find_index_cases c alphabet 0) as [F|F]; [contradiction|exact F].
Qed.

Lemma decode_loop_None (l : list byte) (a j : N) (c : byte) :
  In c l -> ~ In c alphabet -> decode_loop l a j = None.
Proof.
  revert a j. induction l as [|d l IH]; intros a j Hin Hc; [contradiction|].
  cbn [decode_loop]. destruct (N.eqb_spec (b58 d) 255); [reflexivity|].
  destruct Hin as [->|Hin]; [|now apply IH].
  elim n. now apply find_index_absent.
Qed.

Lemma SetBytes_zeros (k : nat) (l : list byte) :
  big.SetBytes (zeros k ++ l) = big.SetBytes l.
Proof.
  rewrite !SetBytes_from_digits, map_app, rev_app_distr.
  unfold zeros. rewrite map_repeat, rev_repeat.
  change (Byte.to_N x00) with 0. apply from_digits_app_zeros; lia.
Qed.

Lemma SetBytes_Bytes (x : N) : big.SetBytes (big.Bytes x) = x.
Proof.
  unfold big.Bytes. rewrite SetBytes_from_digits, <- map_rev, rev_involutive.
  rewrite map_map.
  rewrite (map_ext_in _ (fun d => d)).
  - rewrite map_id. apply digits_value; [lia|apply size_nat_bound].
  - intros d Hd. rewrite to_N_byte_of_N. apply N.mod_small.
    pose proof (digits_lt (radix := 256) ltac:(lia) (N.size_nat x) x) as F.
    rewrite Forall_forall in F. now apply F.
Qed.

Lemma Bytes_no_leading_zero (x : N) : hd_error (big.Bytes x) <> Some x00.
Proof.
  unfold big.Bytes.
  pose proof (digits_normal (radix := 256) ltac:(lia) (N.size_nat x)
                (size_nat_bound x)) as Hn.
  pose proof (digits_lt (radix := 256) ltac:(lia) (N.size_nat x) x) as Hl.
  destruct (big.digits 256 (N.size_nat x) x) as [|d ds] using rev_ind;
    [discriminate|].
  rewrite map_app, rev_app_distr. simpl. intros [= E].
  unfold normal in Hn. rewrite last_last in Hn. apply Hn.
  apply Forall_app in Hl. destruct Hl as [_ Hl]. inversion Hl; subst.
  rewrite <- (N.mod_small d 256), <- to_N_byte_of_N, E by assumption.
  reflexivity.
Qed.

Lemma Decode_shape (s : gostring) :
  Forall (fun c => In c alphabet) s ->
  Decode s = zeros (count_leading alphabetIdx0 s)
             ++ big.Bytes (from_digits 58 (map b58 (rev s))).
Proof.
  intros H. unfold Decode.
  rewrite decode_loop_alphabet by now apply Forall_rev.
  rewrite N.add_0_l, N.mul_1_l.
  set (z := count_leading alphabetIdx0 s). set (t := big.Bytes _).
  unfold zeros. rewrite repeat_app.
  rewrite firstn_app, skipn_app, repeat_length, Nat.sub_diag.
  rewrite firstn_all2, skipn_all2 by (rewrite repeat_length; lia).
  rewrite firstn_O, skipn_O, app_nil_r. simpl app.
  now rewrite copy_same_length by apply repeat_length.
Qed.

(** Encoding a decoding gives the text back: on texts over the alphabet
    the two functions are inverse to each other. *)
Lemma Encode_Decode (s : gostring) :
  Forall (fun c => In c alphabet) s -> Encode (Decode s) = s.
Proof.
  intros H. rewrite Decode_shape by exact H.
  set (z := count_leading alphabetIdx0 s).
  set (s' := skipn z s).
  assert (Hs : s = repeat alphabetIdx0 z ++ s') by apply leading_split.
  assert (Hd : hd_error s' <> Some alphabetIdx0) by apply leading_rest.
  clearbody s' z. subst s.
  assert (Hs' : Forall (fun c => In c alphabet) s')
    by now apply Forall_app in H.
  set (ds := map b58 (rev s')).
  assert (Hx : from_digits 58 (map b58 (rev (repeat alphabetIdx0 z ++ s')))
               = from_digits 58 ds).
  { rewrite rev_app_distr, map_app, rev_repeat, map_repeat.
    change (b58 alphabetIdx0) with 0. apply from_digits_app_zeros; lia. }
  rewrite Hx. set (x := from_digits 58 ds).
  rewrite Encode_shape.
  assert (Hz : count_leading x00 (zeros z ++ big.Bytes x) = z)
    by (apply count_leading_app, Bytes_no_leading_zero).
  rewrite Hz. unfold digits58. rewrite SetBytes_zeros, SetBytes_Bytes.
  assert (Hds : big.digits 58 (N.size_nat x) x = ds).
  { apply digits_from_digits; [lia| | |apply size_nat_bound].
    - apply Forall_map, Forall_rev.
      eapply Forall_impl; [|exact Hs']. intros c Hc.
      now destruct (b58_alphabet Hc).
    - unfold normal, ds. rewrite map_rev, last_rev_hd.
      destruct s' as [|c s'']; [discriminate|]. simpl.
      inversion Hs' as [|? ? Hc _]; subst.
      destruct (b58_alphabet Hc) as [_ Hchr].
      intros E. apply Hd. simpl. f_equal.
      rewrite <- Hchr, E. reflexivity. }
  rewrite Hds. unfold ds. rewrite map_map, <- map_rev.
  rewrite (map_ext_in _ (fun c => c)).
  - now rewrite map_id, rev_involutive.
  - intros c Hc. rewrite rev_involutive in Hc.
    rewrite Forall_forall in Hs'.
    now destruct (b58_alphabet (Hs' c Hc)).
Qed.

End Base58Texts.

(** ** Accepted recovery keys *)

Section AcceptedTexts.

Lemma valid_payload_framed (p : list byte) :
  valid_payload p = true -> p = framed (firstn 32 (skipn 2 p)).
Proof.
  intros V. apply valid_payload_iff in V. destruct V as (L & P & B0 & B1).
  explode p L. cbn [nth firstn skipn] in *. subst.
  reflexivity.
Qed.

Lemma payload_of_alphabet (text : gostring) :
  payload_of text <> [] ->
  Forall (fun c => In c base58.alphabet)
    (strings.ReplaceAll text " "%byte []).
Proof.
  unfold payload_of, base58.Decode. intros H.
  destruct (base58.decode_loop _ 0 1) eqn:E; [|congruence].
  apply decode_loop_Some in E. apply Forall_rev in E.
  now rewrite rev_involutive in E.
Qed.

Lemma DecodeBase58RecoveryKey_Some (text : gostring) (s : list byte) :
  DecodeBase58RecoveryKey text = Ok (Some s) ->
  valid_payload (payload_of text) = true
  /\ s = firstn 32 (skipn 2 (payload_of text)).
Proof.
  rewrite DecodeBase58RecoveryKey_eq.
  destruct (valid_payload (payload_of text)); [|discriminate].
  intros [= <-]. now split.
Qed.

(** X1.  The accepted texts are the encoder's outputs up to spacing: a
    text decodes to the secret [s] exactly when [s] has 32 bytes and the
    text without its spaces is the recovery key of [s] without its
    spaces. *)
Theorem DecodeBase58RecoveryKey_accepts_iff (text : gostring)
  (s : list byte) :
  DecodeBase58RecoveryKey text = Ok (Some s)
  <-> length s = 32%nat
      /\ exists key,
           EncodeBase58RecoveryKey s = Ok key
           /\ strings.ReplaceAll text " "%byte []
              = strings.ReplaceAll key " "%byte [].
Proof.
  split.
  - intros H. apply DecodeBase58RecoveryKey_Some in H.
    destruct H as [V Hs].
    pose proof (valid_payload_framed _ V) as F. rewrite <- Hs in F.
    assert (L : length s = 32%nat).
    { apply valid_payload_iff in V. destruct V as [L _].
      rewrite Hs, length_firstn, length_skipn. lia. }
    split; [exact L|]. eexists. split.
    + rewrite EncodeBase58RecoveryKey_eq.
      now rewrite copy_same_length by (rewrite L; reflexivity).
    + rewrite strip_spacing_loop by apply Encode_no_space. simpl app.
      rewrite <- F. unfold payload_of. symmetry. apply Encode_Decode.
      apply payload_of_alphabet. rewrite F. discriminate.
  - intros (L & key & E & S).
    rewrite EncodeBase58RecoveryKey_eq in E.
    rewrite copy_same_length in E by (rewrite L; reflexivity).
    injection E as <-.
    rewrite strip_spacing_loop in S by apply Encode_no_space.
    simpl app in S.
    rewrite DecodeBase58RecoveryKey_eq. unfold payload_of.
    rewrite S, Decode_Encode.
    destruct (framed_layout _ L) as (_ & _ & _ & Hs & _ & V).
    now rewrite V, Hs.
Qed.

(** X3.  One byte that is neither a space nor a base58 character makes
    the whole text invalid, wherever it stands. *)
Theorem DecodeBase58RecoveryKey_foreign_byte (text : gostring) (c : byte) :
  In c text -> c <> " "%byte -> ~ In c base58.alphabet ->
  DecodeBase58RecoveryKey text = Ok None.
Proof.
  intros Hin Hsp Hc. rewrite DecodeBase58RecoveryKey_eq.
  assert (E : payload_of text = []).
  { unfold payload_of, base58.Decode.
    rewrite (@decode_loop_None _ 0 1 c); [reflexivity| |exact Hc].
    apply -> in_rev. unfold strings.ReplaceAll. apply in_flat_map.
    exists c. split; [exact Hin|].
    destruct (Byte.eqb c " ") eqn:B; [|now left].
    apply Byte.byte_dec_bl in B. contradiction. }
  now rewrite E.
Qed.

Lemma DecodeBase58RecoveryKey_foreign_byte_witness :
  In x0a (sample.accepted_text ++ [x0a])
  /\ x0a <> " "%byte /\ ~ In x0a base58.alphabet
  /\ DecodeBase58RecoveryKey (sample.accepted_text ++ [x0a]) = Ok None.
Proof.
  assert (H1 : In x0a (sample.accepted_text ++ [x0a]))
    by (apply in_or_app; right; now left).
  assert (H2 : x0a <> " "%byte) by discriminate.
  assert (H3 : ~ In x0a base58.alphabet).
  { intros H. cbv in H.
    repeat (destruct H as [H|H]; [discriminate H|]). exact H. }
  split; [exact H1|]. split; [exact H2|]. split; [exact H3|].
  exact (DecodeBase58RecoveryKey_foreign_byte _ H1 H2 H3).
Defined.

(** X4.  Two keys of any lengths get the same recovery key exactly when
    their first 32 bytes, padded with zero bytes to 32, are equal: distinct
    32-byte secrets never share a recovery key, while a short key shares
    its recovery key with its zero-padded form and a long key with its
    first 32 bytes. *)
Theorem EncodeBase58RecoveryKey_same_iff (key key' : list byte) :
  EncodeBase58RecoveryKey key = EncodeBase58RecoveryKey key'
  <-> firstn 32 key ++ zeros (32 - length key)
      = firstn 32 key' ++ zeros (32 - length key').
Proof.
  rewrite !EncodeBase58RecoveryKey_eq, <- !copy_zeros. split.
  - intros [= E]. apply (f_equal payload_of) in E.
    rewrite !payload_of_spaced in E.
    apply (f_equal (fun p => firstn 32 (skipn 2 p))) in E.
    destruct (framed_layout _ (copy_length (zeros 32) key))
      as (_ & _ & _ & H & _).
    destruct (framed_layout _ (copy_length (zeros 32) key'))
      as (_ & _ & _ & H' & _).
    now rewrite H, H' in E.
  - now intros ->.
Qed.

End AcceptedTexts.

(** ** The shape of a recovery key *)

Section Shape.

Lemma SetBytes_app (a c : list byte) :
  big.SetBytes (a ++ c)
  = big.SetBytes a * 256 ^ N.of_nat (length c) + big.SetBytes c.
Proof.
  induction c as [|d c IH] using rev_ind.
  - rewrite app_nil_r. simpl. change (big.SetBytes []) with 0. lia.
  - rewrite app_assoc, !SetBytes_snoc, IH, length_app. simpl length.
    rewrite Nat.add_1_r, Nat2N.inj_succ, N.pow_succ_r'. lia.
Qed.

Lemma SetBytes_lt (l : list byte) :
  big.SetBytes l < 256 ^ N.of_nat (length l).
Proof.
  induction l as [|d l IH] using rev_ind; [reflexivity|].
  rewrite SetBytes_snoc, length_app. simpl length.
  rewrite Nat.add_1_r, Nat2N.inj_succ, N.pow_succ_r'.
  pose proof (to_N_lt d). lia.
Qed.

Lemma digits_nth (radix : N) (fuel : nat) (x : N) (i : nat) :
  2 <= radix -> x < 2 ^ N.of_nat fuel ->
  nth i (big.digits radix fuel x) 0 = (x / radix ^ N.of_nat i) mod radix.
Proof.
  intros Hr. revert x i. induction fuel as [|fuel IH]; intros x i Hx.
  - simpl in Hx. assert (x = 0) by lia. subst x.
    rewrite N.Div0.div_0_l, N.Div0.mod_0_l. now destruct i.
  - rewrite Nat2N.inj_succ, N.pow_succ_r' in Hx. simpl big.digits.
    destruct (N.ltb_spec 0 x) as [Hpos|Hz].
    + destruct i as [|i]; [simpl; now rewrite N.div_1_r|].
      cbn [nth]. rewrite IH.
      * rewrite Nat2N.inj_succ, N.pow_succ_r', N.Div0.div_div. reflexivity.
      * assert (x / radix <= x / 2) by (apply N.div_le_compat_l; lia). lia.
    + assert (x = 0) by lia. subst x.
      rewrite N.Div0.div_0_l, N.Div0.mod_0_l. now destruct i.
Qed.

Lemma digits_length (radix : N) (fuel : nat) (x : N) (k : nat) :
  2 <= radix -> x < 2 ^ N.of_nat fuel ->
  radix ^ N.of_nat k <= x < radix ^ N.of_nat (S k) ->
  length (big.digits radix fuel x) = S k.
Proof.
  intros Hr. revert x k. induction fuel as [|fuel IH]; intros x k Hx Hk.
  - simpl in Hx. assert (0 < radix ^ N.of_nat k)
      by (apply N.neq_0_lt_0, N.pow_nonzero; lia). lia.
  - rewrite Nat2N.inj_succ, N.pow_succ_r' in Hx. simpl big.digits.
    assert (Hp : 0 < radix ^ N.of_nat k)
      by (apply N.neq_0_lt_0, N.pow_nonzero; lia).
    destruct (N.ltb_spec 0 x) as [Hpos|Hz]; [|lia].
    simpl length. f_equal.
    assert (Hq : x / radix < 2 ^ N.of_nat fuel).
    { assert (x / radix <= x / 2) by (apply N.div_le_compat_l; lia). lia. }
    destruct k as [|k].
    + change (N.of_nat 0) with 0 in Hk. change (N.of_nat 1) with 1 in Hk.
      rewrite N.pow_0_r, N.pow_1_r in Hk.
      rewrite N.div_small by lia. now destruct fuel.
    + apply IH; [exact Hq|].
      rewrite !Nat2N.inj_succ, !N.pow_succ_r' in *. split.
      * apply N.div_le_lower_bound; lia.
      * apply N.Div0.div_lt_upper_bound. lia.
Qed.

Lemma framed_number (s : list byte) :
  length s = 32%nat ->
  35585 * 256 ^ 33 <= big.SetBytes (framed s) < 35586 * 256 ^ 33.
Proof.
  intros H.
  change (framed s)
    with ([x8b; x01] ++ (s ++ [parity_loop (x8b :: x01 :: s)])).
  rewrite SetBytes_app.
  pose proof (SetBytes_lt (s ++ [parity_loop (x8b :: x01 :: s)])) as B.
  rewrite length_app, H in *. change (N.of_nat (32 + length [_])) with 33 in *.
  change (big.SetBytes [x8b; x01]) with 35585. lia.
Qed.

(** X2.  Every recovery key of a 32-byte secret has the same shape: 59
    characters, namely twelve groups of four base58 characters separated by
    single spaces, the first group starting with "Es". *)
Theorem EncodeBase58RecoveryKey_shape (s : list byte) :
  length s = 32%nat ->
  exists text groups,
    EncodeBase58RecoveryKey s = Ok text
    /\ text = joined [" "%byte] groups
    /\ length groups = 12%nat
    /\ Forall (fun g => length g = 4%nat
                        /\ Forall (fun c => In c base58.alphabet) g) groups
    /\ length text = 59%nat
    /\ firstn 2 text = str "Es".
Proof.
  intros H. rewrite EncodeBase58RecoveryKey_eq.
  rewrite copy_same_length by (rewrite H; reflexivity).
  pose proof (framed_number _ H) as Hx.
  rewrite spacing_loop_eq_grouped, Encode_shape.
  change (base58.count_leading x00 (framed s)) with 0%nat. cbn [repeat app].
  unfold digits58. set (x := big.SetBytes (framed s)) in *.
  pose proof (size_nat_bound x) as Hf.
  pose proof (digits_lt (radix := 58) ltac:(lia) (N.size_nat x) x) as Hd.
  assert (H47 : nth 47 (big.digits 58 (N.size_nat x) x) 0 = 13).
  { rewrite digits_nth by (lia || assumption).
    let v := eval vm_compute in (58 ^ N.of_nat 47) in
      change (58 ^ N.of_nat 47) with v.
    let v := eval vm_compute in (256 ^ 33) in
      change (256 ^ 33) with v in Hx. lia. }
  assert (H46 : nth 46 (big.digits 58 (N.size_nat x) x) 0 = 50).
  { rewrite digits_nth by (lia || assumption).
    let v := eval vm_compute in (58 ^ N.of_nat 46) in
      change (58 ^ N.of_nat 46) with v.
    let v := eval vm_compute in (256 ^ 33) in
      change (256 ^ 33) with v in Hx. lia. }
  assert (L : length (big.digits 58 (N.size_nat x) x) = 48%nat).
  { apply digits_length; [lia|assumption|].
    let v := eval vm_compute in (58 ^ N.of_nat 47) in
      change (58 ^ N.of_nat 47) with v.
    let v := eval vm_compute in (58 ^ N.of_nat 48) in
      change (58 ^ N.of_nat 48) with v.
    let v := eval vm_compute in (256 ^ 33) in
      change (256 ^ 33) with v in Hx. lia. }
  clearbody x. clear Hx Hf.
  set (D := big.digits 58 (N.size_nat x) x) in *. clearbody D.
  explode D L. cbn [nth] in H47, H46. subst.
  repeat (apply Forall_cons_iff in Hd; destruct Hd as [? Hd]).
  cbn [map rev app].
  match goal with
  | |- context [grouped ?E] => exists (grouped E), (quads E)
  end.
  split; [reflexivity|]. split; [reflexivity|]. split; [reflexivity|].
  split; [|split; reflexivity].
  repeat (apply Forall_cons; [split; [reflexivity|]|]);
    try apply Forall_nil;
    repeat (apply Forall_cons; [apply chr_in_alphabet; assumption|]);
    apply Forall_nil.
Qed.

Lemma EncodeBase58RecoveryKey_shape_witness :
  length sample.secret = 32%nat
  /\ exists text groups,
       EncodeBase58RecoveryKey sample.secret = Ok text
       /\ text = joined [" "%byte] groups
       /\ length groups = 12%nat
       /\ Forall (fun g => length g = 4%nat
                           /\ Forall (fun c => In c base58.alphabet) g)
            groups
       /\ length text = 59%nat
       /\ firstn 2 text = str "Es".
Proof.
  split; [reflexivity|].
  apply (EncodeBase58RecoveryKey_shape sample.secret). reflexivity.
Defined.

End Shape.

(** ** The key stream *)

Section KeyStream.
Import cipher.

Lemma bxor_same_key (a c k : byte) : bxor (bxor a k) (bxor c k) = bxor a c.
Proof.
  rewrite (bxor_comm c k), bxor_assoc, <- (bxor_assoc k k c).
  now rewrite bxor_nilpotent, bxor_0_l.
Qed.

(** Running the loop over a concatenation is running it over the parts,
    the second from the state the first has left. *)
Lemma xor_loop_app (m1 m2 : list byte) :
  forall x : ctr,
    xor_loop x (m1 ++ m2)
    = ('(d1, x1) <- xor_loop x m1 ;;
       '(d2, x2) <- xor_loop x1 m2 ;;
       Ok (d1 ++ d2, x2)).
Proof.
  induction m1 as [|s m1 IH]; intros x.
  - cbn [app xor_loop bind]. now destruct (xor_loop x m2) as [[d2 x2]| |].
  - cbn [app xor_loop].
    set (x1 := match out x with [] => refill x | _ :: _ => x end).
    destruct (out x1) as [|k o]; [reflexivity|].
    rewrite IH.
    destruct (xor_loop _ m1) as [[d1 x1']| |]; cbn [bind]; try reflexivity.
    now destruct (xor_loop x1' m2) as [[d2 x2]| |].
Qed.

(** Two runs from the same state use the same key stream. *)
Lemma xor_loop_pair (m1 : list byte) :
  forall (m2 : list byte) (x : ctr) (c1 c2 : list byte) (x1 x2 : ctr),
    length m1 = length m2 ->
    xor_loop x m1 = Ok (c1, x1) -> xor_loop x m2 = Ok (c2, x2) ->
    xor_bytes c1 c2 = xor_bytes m1 m2.
Proof.
  induction m1 as [|a m1 IH]; intros [|c m2] x c1 c2 x1 x2 L E1 E2;
    try discriminate L.
  - simpl in E1, E2. injection E1 as <- <-. injection E2 as <- <-.
    reflexivity.
  - cbn [xor_loop] in E1, E2.
    set (x' := match out x with [] => refill x | _ :: _ => x end) in *.
    destruct (out x') as [|k o]; [discriminate E1|].
    destruct (xor_loop _ m1) as [[d1 y1]| |] eqn:F1; try discriminate E1.
    destruct (xor_loop _ m2) as [[d2 y2]| |] eqn:F2; try discriminate E2.
    cbn [bind] in E1, E2. injection E1 as <- <-. injection E2 as <- <-.
    cbn [xor_bytes]. rewrite bxor_same_key. f_equal.
    injection L as L. exact (IH _ _ _ _ _ _ L F1 F2).
Qed.

(** While the buffered key stream lasts, the counter is not touched. *)
Lemma xor_loop_buffered (m : list byte) :
  forall x : ctr,
    (length m <= length (out x))%nat ->
    xor_loop x m
    = Ok (xor_bytes m (out x),
          {| b := b x; counter := counter x;
             out := skipn (length m) (out x) |}).
Proof.
  induction m as [|s m IH]; intros x L.
  - simpl. now destruct x.
  - cbn [xor_loop]. destruct (out x) as [|k o] eqn:E; [simpl in L; lia|].
    rewrite E. rewrite IH by (simpl in *; lia). reflexivity.
Qed.

(** One whole block from an empty buffer: the block is the encrypted
    counter and the counter advances by one. *)
Lemma xor_loop_block (x : ctr) (m : list byte) :
  out x = [] -> length m = BlockSize (b x) -> (0 < BlockSize (b x))%nat ->
  xor_loop x m
  = Ok (xor_bytes m (Encrypt (b x) (counter x)),
        {| b := b x; counter := increment (counter x); out := [] |}).
Proof.
  intros Ho Lm Hpos. destruct m as [|s m]; [simpl in Lm; lia|].
  cbn [xor_loop]. rewrite Ho. unfold refill at 1 2. cbn [out]. rewrite Ho.
  cbn [app]. pose proof (Encrypt_length (b x) (counter x)) as LE.
  destruct (Encrypt (b x) (counter x)) as [|k o] eqn:E;
    [simpl in LE; lia|].
  rewrite xor_loop_buffered by (cbn [out]; simpl in *; lia).
  cbn [bind b counter out refill xor_bytes]. do 3 f_equal.
  apply skipn_all2. simpl in *. lia.
Qed.

Lemma increment_rev_length (rc : list byte) :
  length (increment_rev rc) = length rc.
Proof.
  induction rc as [|c rc IH]; [reflexivity|]. simpl.
  destruct (negb (Byte.eqb (bsucc c) x00)); simpl; now rewrite ?IH.
Qed.

Lemma increment_length (c : list byte) : length (increment c) = length c.
Proof.
  unfold increment. now rewrite length_rev, increment_rev_length, length_rev.
Qed.

Lemma iter_increment_length (k : nat) (c : list byte) :
  length (Nat.iter k increment c) = length c.
Proof.
  induction k as [|k IH]; [reflexivity|]. simpl.
  now rewrite increment_length.
Qed.

(** [k] whole blocks from an empty buffer advance the counter [k]
    times. *)
Lemma xor_loop_blocks (k : nat) :
  forall (x : ctr) (m : list byte),
    out x = [] -> (0 < BlockSize (b x))%nat ->
    length m = (k * BlockSize (b x))%nat ->
    exists d,
      xor_loop x m
      = Ok (d, {| b := b x; counter := Nat.iter k increment (counter x);
                  out := [] |}).
Proof.
  induction k as [|k IH]; intros x m Ho Hpos L.
  - destruct m; [|discriminate L]. exists []. simpl. rewrite <- Ho.
    now destruct x.
  - rewrite <- (firstn_skipn (BlockSize (b x)) m), xor_loop_app.
    rewrite xor_loop_block;
      [|exact Ho|rewrite length_firstn; simpl in L; lia|exact Hpos].
    cbn [bind].
    destruct (IH {| b := b x; counter := increment (counter x); out := [] |}
                (skipn (BlockSize (b x)) m)) as [d E];
      [reflexivity|exact Hpos|cbn [b]; rewrite length_skipn; simpl in L; lia|].
    rewrite E. cbn [bind b counter]. eexists. do 3 f_equal.
    symmetry. apply Nat.iter_succ_r.
Qed.

End KeyStream.

(** ** The counter as a number *)

Section Counter.
Import cipher.

Lemma from_digits_bytes_lt (l : list byte) :
  from_digits 256 (map Byte.to_N l) < 256 ^ N.of_nat (length l).
Proof.
  induction l as [|c l IH]; [reflexivity|].
  cbn [map from_digits length]. rewrite Nat2N.inj_succ, N.pow_succ_r'.
  pose proof (to_N_lt c). lia.
Qed.

Lemma increment_rev_value (rc : list byte) :
  from_digits 256 (map Byte.to_N (increment_rev rc))
  = (from_digits 256 (map Byte.to_N rc) + 1) mod 256 ^ N.of_nat (length rc).
Proof.
  induction rc as [|c rc IH]; [reflexivity|].
  cbn [increment_rev length]. rewrite Nat2N.inj_succ, N.pow_succ_r'.
  pose proof (from_digits_bytes_lt rc) as B. pose proof (to_N_lt c) as Bc.
  assert (Hs : Byte.to_N (bsucc c) = (Byte.to_N c + 1) mod 256)
    by apply to_N_byte_of_N.
  destruct (Byte.eqb (bsucc c) x00) eqn:E; cbn [negb map from_digits].
  - apply Byte.byte_dec_bl in E. rewrite E in *.
    change (Byte.to_N x00) with 0 in *.
    rewrite IH.
    assert (Byte.to_N c = 255) by lia.
    replace (Byte.to_N c + 256 * from_digits 256 (map Byte.to_N rc) + 1)
      with (256 * (from_digits 256 (map Byte.to_N rc) + 1)) by lia.
    rewrite N.Div0.mul_mod_distr_l. lia.
  - assert (Byte.to_N (bsucc c) <> 0).
    { intros Z. apply Byte.eqb_false in E. apply E, to_N_inj.
      now rewrite Z. }
    rewrite N.mod_small; lia.
Qed.

(** [increment] adds one to the counter block read as a big-endian
    number, wrapping at its width. *)
Lemma increment_value (c : list byte) :
  big.SetBytes (increment c)
  = (big.SetBytes c + 1) mod 256 ^ N.of_nat (length c).
Proof.
  rewrite !SetBytes_from_digits, <- !map_rev. unfold increment.
  rewrite rev_involutive, increment_rev_value, length_rev. reflexivity.
Qed.

Lemma iter_increment_value (k : nat) (c : list byte) :
  big.SetBytes (Nat.iter k increment c)
  = (big.SetBytes c + N.of_nat k) mod 256 ^ N.of_nat (length c).
Proof.
  induction k as [|k IH].
  - simpl. rewrite N.add_0_r. symmetry. apply N.mod_small, SetBytes_lt.
  - rewrite Nat.iter_succ, increment_value, iter_increment_length, IH.
    rewrite N.Div0.add_mod_idemp_l. f_equal. lia.
Qed.

End Counter.

(** ** The cipher on related messages *)

Section CipherExtras.
Import cipher.

Variable aes_NewCipher : list byte -> option cipher.Block.
Hypothesis aes_256 :
  forall key, length key = 32%nat ->
    exists blk, aes_NewCipher key = Some blk
                /\ cipher.BlockSize blk = 16%nat.

Lemma XorA256CTR_loop (m key iv : list byte) (blk : Block) :
  aes_NewCipher key = Some blk -> BlockSize blk = 16%nat ->
  length iv = 16%nat ->
  XorA256CTR aes_NewCipher m key iv
  = ('(d, _) <- xor_loop {| b := blk; counter := iv; out := [] |} m ;;
     Ok d).
Proof.
  intros Hblk Hbs Hiv. unfold XorA256CTR, NewCTR.
  rewrite Hblk, Hbs, Hiv. cbn [Nat.eqb negb bind].
  destruct (xor_loop _ m) as [[d x']| |] eqn:E.
  - now rewrite (XORKeyStream_fresh _ _ E).
  - unfold XORKeyStream, zeros.
    now rewrite repeat_length, Nat.ltb_irrefl, E.
  - unfold XORKeyStream, zeros.
    now rewrite repeat_length, Nat.ltb_irrefl, E.
Qed.

(** X5.  The output for a message is a prefix of the output for any
    extension of the message: byte [i] of the output depends on the key,
    the IV and byte [i] of the input only. *)
Theorem XorA256CTR_extension (m1 m2 key iv : list byte) :
  length key = 32%nat -> length iv = 16%nat ->
  exists c1 c2,
    XorA256CTR aes_NewCipher m1 key iv = Ok c1
    /\ XorA256CTR aes_NewCipher (m1 ++ m2) key iv = Ok (c1 ++ c2)
    /\ length c1 = length m1 /\ length c2 = length m2.
Proof.
  intros Hk Hiv. destruct (aes_256 key Hk) as (blk & Hblk & Hbs).
  rewrite !(XorA256CTR_loop _ _ Hblk Hbs Hiv), xor_loop_app.
  set (x := {| b := blk; counter := iv; out := [] |}).
  destruct (xor_loop_returns m1 x) as (c1 & x1 & E1); [simpl; lia|].
  destruct (xor_loop_length _ _ E1) as [L1 B1].
  destruct (xor_loop_returns m2 x1) as (c2 & x2 & E2);
    [rewrite B1; simpl; lia|].
  destruct (xor_loop_length _ _ E2) as [L2 _].
  exists c1, c2. rewrite E1. cbn [bind]. rewrite E2. now cbn [bind].
Qed.

(** X6.  Key-stream reuse: for two messages of the same length under the
    same key and IV, the XOR of the two outputs is the XOR of the two
    messages. *)
Theorem XorA256CTR_keystream_reuse (m1 m2 key iv : list byte) :
  length key = 32%nat -> length iv = 16%nat -> length m1 = length m2 ->
  exists c1 c2,
    XorA256CTR aes_NewCipher m1 key iv = Ok c1
    /\ XorA256CTR aes_NewCipher m2 key iv = Ok c2
    /\ xor_bytes c1 c2 = xor_bytes m1 m2.
Proof.
  intros Hk Hiv L. destruct (aes_256 key Hk) as (blk & Hblk & Hbs).
  rewrite !(XorA256CTR_loop _ _ Hblk Hbs Hiv).
  set (x := {| b := blk; counter := iv; out := [] |}).
  destruct (xor_loop_returns m1 x) as (c1 & x1 & E1); [simpl; lia|].
  destruct (xor_loop_returns m2 x) as (c2 & x2 & E2); [simpl; lia|].
  exists c1, c2. rewrite E1, E2. cbn [bind].
  split; [reflexivity|]. split; [reflexivity|].
  exact (xor_loop_pair _ _ _ L E1 E2).
Qed.

(** X7.  Resuming at a block boundary: after [k] blocks of 16 bytes the
    rest of a message is processed as a message of its own under the IV
    advanced [k] times, and advancing adds [k] to the IV read as a
    big-endian number modulo [2 ^ 128]. *)
Theorem XorA256CTR_resume (m1 m2 key iv : list byte) (k : nat) :
  length key = 32%nat -> length iv = 16%nat ->
  length m1 = (16 * k)%nat ->
  let iv' := Nat.iter k cipher.increment iv in
  exists c1 c2,
    XorA256CTR aes_NewCipher m1 key iv = Ok c1
    /\ XorA256CTR aes_NewCipher m2 key iv' = Ok c2
    /\ XorA256CTR aes_NewCipher (m1 ++ m2) key iv = Ok (c1 ++ c2)
    /\ length iv' = 16%nat
    /\ big.SetBytes iv' = (big.SetBytes iv + N.of_nat k) mod 2 ^ 128.
Proof.
  intros Hk Hiv L iv'. destruct (aes_256 key Hk) as (blk & Hblk & Hbs).
  assert (Hiv' : length iv' = 16%nat)
    by (unfold iv'; now rewrite iter_increment_length).
  rewrite !(XorA256CTR_loop _ _ Hblk Hbs Hiv),
    (XorA256CTR_loop _ _ Hblk Hbs Hiv'), xor_loop_app.
  set (x := {| b := blk; counter := iv; out := [] |}).
  destruct (xor_loop_blocks k x m1) as [c1 E1];
    [reflexivity|simpl; lia|simpl; lia|].
  cbn [b counter x] in E1. fold iv' in E1.
  destruct (xor_loop_returns m2 {| b := blk; counter := iv'; out := [] |})
    as (c2 & x2 & E2); [simpl; lia|].
  exists c1, c2. rewrite E1. cbn [bind]. rewrite E2. cbn [bind].
  repeat split; try reflexivity; try assumption.
  unfold iv'. rewrite iter_increment_value, Hiv. reflexivity.
Qed.

End CipherExtras.

(** ** Nonce and counter *)

Section NonceAndCounter.
Import cipher.

Lemma from_digits_bytes_inj (l1 : list byte) :
  forall l2 : list byte,
    length l1 = length l2 ->
    from_digits 256 (map Byte.to_N l1) = from_digits 256 (map Byte.to_N l2) ->
    l1 = l2.
Proof.
  induction l1 as [|c1 l1 IH]; intros [|c2 l2] L E; try discriminate L;
    [reflexivity|].
  cbn [map from_digits] in E.
  pose proof (to_N_lt c1). pose proof (to_N_lt c2).
  assert (Byte.to_N c1 = Byte.to_N c2) by lia.
  f_equal; [now apply to_N_inj|].
  apply IH; [now injection L|lia].
Qed.

Lemma SetBytes_inj (l1 l2 : list byte) :
  length l1 = length l2 -> big.SetBytes l1 = big.SetBytes l2 -> l1 = l2.
Proof.
  intros L E. rewrite !SetBytes_from_digits, <- !map_rev in E.
  apply from_digits_bytes_inj in E; [|now rewrite !length_rev].
  rewrite <- (rev_involutive l1), <- (rev_involutive l2). now f_equal.
Qed.

(** As long as the last eight bytes of a 16-byte counter block, read as a
    number, stay below [2 ^ 64], advancing the block changes those bytes
    only. *)
Lemma counter_no_carry (iv : list byte) (k : nat) :
  length iv = 16%nat ->
  big.SetBytes (skipn 8 iv) + N.of_nat k < 2 ^ 64 ->
  firstn 8 (Nat.iter k increment iv) = firstn 8 iv
  /\ big.SetBytes (skipn 8 (Nat.iter k increment iv))
     = big.SetBytes (skipn 8 iv) + N.of_nat k.
Proof.
  intros L B. set (iv' := Nat.iter k increment iv).
  assert (L' : length iv' = 16%nat)
    by (unfold iv'; now rewrite iter_increment_length).
  pose proof (iter_increment_value k iv) as V. fold iv' in V.
  pose proof (SetBytes_app (firstn 8 iv) (skipn 8 iv)) as A.
  pose proof (SetBytes_app (firstn 8 iv') (skipn 8 iv')) as A'.
  rewrite firstn_skipn, length_skipn in A, A'. rewrite L in A, V.
  rewrite L' in A'. rewrite A, A' in V.
  pose proof (SetBytes_lt (firstn 8 iv)) as B1.
  pose proof (SetBytes_lt (firstn 8 iv')) as B1'.
  pose proof (SetBytes_lt (skipn 8 iv')) as B2'.
  rewrite length_firstn, ?length_skipn, ?L, ?L' in *.
  change (N.of_nat (Nat.min 8 16)) with 8 in *.
  change (N.of_nat (16 - 8)) with 8 in *.
  change (N.of_nat 16) with 16 in *.
  change (256 ^ 8) with 18446744073709551616 in *.
  change (2 ^ 64) with 18446744073709551616 in *.
  change (256 ^ 16)
    with (18446744073709551616 * 18446744073709551616) in V.
  rewrite N.mod_small in V by nia.
  assert (E : big.SetBytes (firstn 8 iv') = big.SetBytes (firstn 8 iv))
    by nia.
  split; [|nia].
  apply SetBytes_inj; [|exact E]. rewrite !length_firstn. lia.
Qed.

End NonceAndCounter.

(** ** The generators and the random source *)

Section GeneratorExtras.
Import cipher.

Variable Source : Type.
Variable next_byte : Source -> byte * Source.

Lemma draw_app (n m : nat) (s : Source) :
  rand.draw next_byte (n + m) s
  = (fst (rand.draw next_byte n s)
       ++ fst (rand.draw next_byte m (snd (rand.draw next_byte n s))),
     snd (rand.draw next_byte m (snd (rand.draw next_byte n s)))).
Proof.
  revert s. induction n as [|n IH]; intros s.
  - simpl. now destruct (rand.draw next_byte m s).
  - cbn [Nat.add rand.draw]. destruct (next_byte s) as [c s1].
    rewrite IH. destruct (rand.draw next_byte n s1) as [cs s2].
    reflexivity.
Qed.

Lemma land_7f_lt (v : byte) : Byte.to_N (band v x7f) < 128.
Proof.
  rewrite to_N_band. change (Byte.to_N x7f) with (N.ones 7).
  rewrite N.land_ones. apply N.mod_lt. discriminate.
Qed.

(** X8.  [GenAttachmentA256CTR] takes 40 bytes from the random source, in
    order: the first 32 are the key and the next 8 the first half of the
    IV.  The second half of the IV is the number zero, and advancing the IV
    by any [k < 2 ^ 64] blocks leaves the first half alone and makes the
    second half the number [k]. *)
Theorem GenAttachmentA256CTR_stream (s : Source) :
  exists key iv s',
    GenAttachmentA256CTR next_byte s = Ok (key, iv, s')
    /\ key ++ firstn 8 iv = fst (rand.draw next_byte 40 s)
    /\ s' = snd (rand.draw next_byte 40 s)
    /\ big.SetBytes (skipn 8 iv) = 0
    /\ forall k : nat,
         N.of_nat k < 2 ^ 64 ->
         firstn 8 (Nat.iter k increment iv) = firstn 8 iv
         /\ big.SetBytes (skipn 8 (Nat.iter k increment iv)) = N.of_nat k.
Proof.
  unfold GenAttachmentA256CTR, rand.Read.
  change (length (zeros AESCTRKeyLength)) with 32%nat.
  change (slice (zeros AESCTRIVLength) 0 8) with (Ok (zeros 8)).
  cbn [bind]. change (length (zeros 8)) with 8%nat.
  change (rand.draw next_byte 40 s)
    with (rand.draw next_byte (32 + 8) s).
  rewrite (draw_app 32 8 s).
  pose proof (draw_length next_byte 32 s) as Hk.
  destruct (rand.draw next_byte 32 s) as [key s1]. cbn [fst snd] in *.
  pose proof (draw_length next_byte 8 s1) as Hw.
  destruct (rand.draw next_byte 8 s1) as [w s2]. cbn [fst snd] in *.
  exists key, (write_back (zeros AESCTRIVLength) 0 8 w), s2.
  split; [reflexivity|].
  assert (E : write_back (zeros AESCTRIVLength) 0 8 w = w ++ zeros 8)
    by reflexivity.
  rewrite E.
  assert (F : firstn 8 (w ++ zeros 8) = w)
    by (rewrite firstn_app, Hw, Nat.sub_diag, firstn_all2 by lia;
        simpl; apply app_nil_r).
  assert (S8 : skipn 8 (w ++ zeros 8) = zeros 8)
    by (rewrite skipn_app, Hw, Nat.sub_diag, skipn_all2 by lia;
        reflexivity).
  rewrite F, S8. split; [reflexivity|]. split; [reflexivity|].
  split; [reflexivity|]. intros k Bk.
  destruct (counter_no_carry (w ++ zeros 8) k) as [C1 C2].
  - rewrite length_app, Hw. reflexivity.
  - rewrite S8. exact Bk.
  - now rewrite C1, C2, F, S8.
Qed.

(** X9.  [GenA256CTRIV] takes 16 bytes from the random source and keeps
    the first eight as drawn.  The last eight, read as a big-endian number,
    are below [2 ^ 63], so advancing the IV by up to [2 ^ 63] blocks never
    carries into the first eight bytes. *)
Theorem GenA256CTRIV_counter (s : Source) :
  exists iv s',
    GenA256CTRIV next_byte s = Ok (iv, s')
    /\ s' = snd (rand.draw next_byte 16 s)
    /\ firstn 8 iv = firstn 8 (fst (rand.draw next_byte 16 s))
    /\ big.SetBytes (skipn 8 iv) < 2 ^ 63
    /\ forall k : nat,
         N.of_nat k <= 2 ^ 63 ->
         firstn 8 (Nat.iter k increment iv) = firstn 8 iv
         /\ big.SetBytes (skipn 8 (Nat.iter k increment iv))
            = big.SetBytes (skipn 8 iv) + N.of_nat k.
Proof.
  unfold GenA256CTRIV, rand.Read.
  change (length (zeros AESCTRIVLength)) with 16%nat.
  pose proof (draw_length next_byte 16 s) as Hiv.
  destruct (rand.draw next_byte 16 s) as [iv s1]. cbn [fst snd] in *.
  explode iv Hiv. cbn [index nth_error bind assign length Nat.ltb Nat.leb].
  eexists _, _. split; [reflexivity|]. split; [reflexivity|].
  split; [reflexivity|].
  match goal with
  | |- big.SetBytes (skipn 8 ?L) < _ /\ _ => set (ivf := L)
  end.
  assert (B : big.SetBytes (skipn 8 ivf) < 2 ^ 63).
  { unfold ivf. cbn [skipn firstn app].
    match goal with
    | |- big.SetBytes (band ?v x7f :: ?rest) < _ =>
        change (band v x7f :: rest) with ([band v x7f] ++ rest);
        rewrite SetBytes_app; pose proof (SetBytes_lt rest) as R;
        pose proof (land_7f_lt v) as V;
        change (big.SetBytes [band v x7f])
          with (0 * 256 + Byte.to_N (band v x7f))
    end.
    cbn [length] in *. change (N.of_nat 7) with 7 in *.
    change (256 ^ 7) with 72057594037927936 in *.
    change (2 ^ 63) with 9223372036854775808. lia. }
  split; [exact B|]. intros k Bk.
  apply counter_no_carry; [reflexivity|].
  change (2 ^ 64) with (2 * 2 ^ 63). lia.
Qed.

End GeneratorExtras.

(** ** Password-based derivation: iteration count and length *)

Section PasswordExtras.
Import hash.

Lemma blocks_few_iterations (prf : Hash) (salt : list byte) (iter : Z)
  (count : nat) :
  (iter <= 1)%Z ->
  forall (block : Z) (dk : list byte),
    pbkdf2.blocks prf salt iter count block dk
    = pbkdf2.blocks prf salt 1 count block dk.
Proof.
  intros H. induction count as [|count IH]; intros block dk;
    [reflexivity|].
  cbn [pbkdf2.blocks]. rewrite IH.
  replace (Z.to_nat (iter - 1)) with (Z.to_nat (1 - 1)) by lia.
  reflexivity.
Qed.

(** X11.  The iteration count is not validated: zero and negative counts
    give the key of a single iteration. *)
Theorem PBKDF2SHA512_few_iterations (sha512_New : Hash)
  (password salt : list byte) (iters keyLenBits : Z) :
  (iters <= 1)%Z ->
  PBKDF2SHA512 sha512_New password salt iters keyLenBits
  = PBKDF2SHA512 sha512_New password salt 1 keyLenBits.
Proof.
  intros H. unfold PBKDF2SHA512, pbkdf2.Key.
  destruct (Z.of_nat _ =? 0)%Z; [reflexivity|].
  destruct (runtime.makeslice _ _) as [dk| |]; try reflexivity.
  cbn [bind]. now rewrite (blocks_few_iterations _ _ _ H).
Qed.

(** X13.  A bit length of -8 or less makes the call panic, whatever the
    password, salt, iteration count and hash: the byte length
    [keyLenBits / 8] is negative, and either the allocation of [dk] or the
    final [dk[:keyLen]] panics. *)
Theorem PBKDF2SHA512_negative_length (h : Hash)
  (password salt : list byte) (iters keyLenBits : Z) :
  (keyLenBits <= -8)%Z ->
  PBKDF2SHA512 h password salt iters keyLenBits = Panic.
Proof.
  intros H. unfold PBKDF2SHA512, pbkdf2.Key.
  destruct (Z.of_nat _ =? 0)%Z; [reflexivity|].
  unfold runtime.makeslice.
  destruct (_ || _ || _ || _)%bool; [reflexivity|]. cbn [bind].
  destruct (Z.ltb_spec (keyLenBits ÷ 8) 0); [reflexivity|lia].
Qed.



Variable sha512_New : Hash.
Hypothesis sha512_Size : Size sha512_New = 64%nat.



End PasswordExtras.

(** ** The MAC tag in base64 *)

Section Base64Facts.
Import base64.

Lemma lor_shiftl_add (a n y : N) :
  y < 2 ^ n -> N.lor (N.shiftl a n) y = a * 2 ^ n + y.
Proof.
  intros H. rewrite N.shiftl_mul_pow2.
  assert (D : N.land (a * 2 ^ n) y = 0).
  { apply N.bits_inj. intros m. rewrite N.land_spec, N.bits_0.
    destruct (N.ltb_spec m n) as [Hm|Hm].
    - now rewrite N.mul_pow2_bits_low.
    - destruct (N.eq_dec y 0) as [->|Hy];
        [now rewrite N.bits_0, andb_false_r|].
      rewrite (N.bits_above_log2 y m), andb_false_r; [reflexivity|].
      apply N.lt_le_trans with n; [|exact Hm].
      apply N.log2_lt_pow2; [lia|exact H]. }
  now rewrite <- N.lxor_lor, <- N.add_nocarry_lxor.
Qed.

(** The three bytes of a group as one 24-bit number. *)
Lemma group_value (s0 s1 s2 : byte) :
  N.lor (N.lor (N.shiftl (Byte.to_N s0) 16) (N.shiftl (Byte.to_N s1) 8))
    (Byte.to_N s2)
  = Byte.to_N s0 * 65536 + Byte.to_N s1 * 256 + Byte.to_N s2.
Proof.
  pose proof (to_N_lt s0). pose proof (to_N_lt s1). pose proof (to_N_lt s2).
  rewrite (N.shiftl_mul_pow2 (Byte.to_N s1)).
  rewrite (lor_shiftl_add (Byte.to_N s0) 16)
    by (change (2 ^ 16) with 65536; change (2 ^ 8) with 256; lia).
  change (2 ^ 16) with 65536. change (2 ^ 8) with 256.
  replace (Byte.to_N s0 * 65536 + Byte.to_N s1 * 256)
    with (N.shiftl (Byte.to_N s0 * 256 + Byte.to_N s1) 8)
    by (rewrite N.shiftl_mul_pow2; change (2 ^ 8) with 256; lia).
  rewrite lor_shiftl_add by (change (2 ^ 8) with 256; lia).
  rewrite ?N.shiftl_mul_pow2. change (2 ^ 8) with 256. lia.
Qed.

Lemma encodeStd_nth (n : nat) :
  (n < 64)%nat ->
  base58.find_index (nth n encodeStd x00) encodeStd 0 = N.of_nat n.
Proof.
  intros H. do 64 (destruct n as [|n]; [reflexivity|]). lia.
Qed.

Lemma sextet_lt (val shift : N) : N.land (N.shiftr val shift) 63 < 64.
Proof.
  change 63 with (N.ones 6). rewrite N.land_ones. now apply N.mod_lt.
Qed.

Lemma encode_inj (v v' shift : N) :
  encode v shift = encode v' shift ->
  (v / 2 ^ shift) mod 64 = (v' / 2 ^ shift) mod 64.
Proof.
  unfold encode. intros H.
  apply (f_equal (fun c => base58.find_index c encodeStd 0)) in H.
  pose proof (sextet_lt v shift). pose proof (sextet_lt v' shift).
  rewrite !encodeStd_nth in H by lia.
  change 63 with (N.ones 6) in H.
  rewrite !N.land_ones, !N.shiftr_div_pow2 in H.
  change (2 ^ 6) with 64 in H. lia.
Qed.

Lemma encode_in (v shift : N) : In (encode v shift) encodeStd.
Proof.
  apply nth_In. pose proof (sextet_lt v shift).
  change (length encodeStd) with 64%nat. lia.
Qed.

Lemma pad_not_in : ~ In padChar encodeStd.
Proof.
  intros H. cbv in H.
  repeat (destruct H as [H|H]; [discriminate H|]). exact H.
Qed.

Lemma encode_not_pad (v shift : N) : encode v shift <> padChar.
Proof. intros E. apply pad_not_in. rewrite <- E. apply encode_in. Qed.

Lemma sextets_value (v : N) :
  v < 16777216 ->
  v = (v / 262144) mod 64 * 262144 + (v / 4096) mod 64 * 4096
      + (v / 64) mod 64 * 64 + v mod 64.
Proof. intros H. lia. Qed.

(** A 24-bit number is determined by its four sextets. *)
Lemma sextets_inj (v v' : N) :
  v < 16777216 -> v' < 16777216 ->
  (v / 2 ^ 18) mod 64 = (v' / 2 ^ 18) mod 64 ->
  (v / 2 ^ 12) mod 64 = (v' / 2 ^ 12) mod 64 ->
  (v / 2 ^ 6) mod 64 = (v' / 2 ^ 6) mod 64 ->
  v mod 64 = v' mod 64 ->
  v = v'.
Proof.
  change (2 ^ 18) with 262144. change (2 ^ 12) with 4096.
  change (2 ^ 6) with 64. intros B B' E18 E12 E6 E0.
  rewrite (sextets_value B), (sextets_value B'), E18, E12, E6, E0.
  reflexivity.
Qed.

Lemma bytes_of_number (a0 a1 a2 c0 c1 c2 : N) :
  a0 < 256 -> a1 < 256 -> a2 < 256 -> c0 < 256 -> c1 < 256 -> c2 < 256 ->
  a0 * 65536 + a1 * 256 + a2 = c0 * 65536 + c1 * 256 + c2 ->
  a0 = c0 /\ a1 = c1 /\ a2 = c2.
Proof. lia. Qed.

Lemma low_sextets_1 (a : N) :
  ((a * 65536) / 2 ^ 6) mod 64 = 0 /\ (a * 65536) mod 64 = 0.
Proof. change (2 ^ 6) with 64. lia. Qed.

Lemma low_sextets_2 (a c : N) : (a * 65536 + c * 256) mod 64 = 0.
Proof. lia. Qed.

(** Whole groups, and the two kinds of final groups, are determined by
    their characters. *)
Lemma group3_inj (s0 s1 s2 t0 t1 t2 : byte) :
  let v :=
    N.lor (N.lor (N.shiftl (Byte.to_N s0) 16) (N.shiftl (Byte.to_N s1) 8))
      (Byte.to_N s2) in
  let v' :=
    N.lor (N.lor (N.shiftl (Byte.to_N t0) 16) (N.shiftl (Byte.to_N t1) 8))
      (Byte.to_N t2) in
  encode v 18 = encode v' 18 -> encode v 12 = encode v' 12 ->
  encode v 6 = encode v' 6 -> encode v 0 = encode v' 0 ->
  s0 = t0 /\ s1 = t1 /\ s2 = t2.
Proof.
  intros v v' E18 E12 E6 E0.
  pose proof (to_N_lt s0). pose proof (to_N_lt s1). pose proof (to_N_lt s2).
  pose proof (to_N_lt t0). pose proof (to_N_lt t1). pose proof (to_N_lt t2).
  assert (B : Byte.to_N s0 * 65536 + Byte.to_N s1 * 256 + Byte.to_N s2
              < 16777216) by lia.
  assert (B' : Byte.to_N t0 * 65536 + Byte.to_N t1 * 256 + Byte.to_N t2
               < 16777216) by lia.
  apply encode_inj in E18, E12, E6, E0.
  unfold v, v' in *. rewrite !group_value in *.
  change (2 ^ 0) with 1 in E0. rewrite !N.div_1_r in E0.
  assert (E : Byte.to_N s0 * 65536 + Byte.to_N s1 * 256 + Byte.to_N s2
              = Byte.to_N t0 * 65536 + Byte.to_N t1 * 256 + Byte.to_N t2)
    by (apply sextets_inj; assumption).
  apply bytes_of_number in E; try assumption.
  destruct E as (E0' & E1' & E2').
  repeat split; now apply to_N_inj.
Qed.

Lemma group2_inj (s0 s1 t0 t1 : byte) :
  let v :=
    N.lor (N.shiftl (Byte.to_N s0) 16) (N.shiftl (Byte.to_N s1) 8) in
  let v' :=
    N.lor (N.shiftl (Byte.to_N t0) 16) (N.shiftl (Byte.to_N t1) 8) in
  encode v 18 = encode v' 18 -> encode v 12 = encode v' 12 ->
  encode v 6 = encode v' 6 ->
  s0 = t0 /\ s1 = t1.
Proof.
  intros v v' E18 E12 E6.
  pose proof (to_N_lt s0) as H0. pose proof (to_N_lt s1) as H1.
  pose proof (to_N_lt t0) as H0'. pose proof (to_N_lt t1) as H1'.
  assert (B : Byte.to_N s0 * 65536 + Byte.to_N s1 * 256 < 16777216) by lia.
  assert (B' : Byte.to_N t0 * 65536 + Byte.to_N t1 * 256 < 16777216)
    by lia.
  apply encode_inj in E18, E12, E6.
  pose proof (group_value s0 s1 x00) as G.
  pose proof (group_value t0 t1 x00) as G'.
  change (Byte.to_N x00) with 0 in G, G'.
  rewrite N.lor_0_r, N.add_0_r in G, G'.
  unfold v, v' in *. rewrite G, G' in *.
  assert (E : Byte.to_N s0 * 65536 + Byte.to_N s1 * 256
              = Byte.to_N t0 * 65536 + Byte.to_N t1 * 256).
  { apply sextets_inj; try assumption. now rewrite !low_sextets_2. }
  clear E18 E12 E6 G G'.
  assert (E' : Byte.to_N s0 = Byte.to_N t0 /\ Byte.to_N s1 = Byte.to_N t1)
    by lia.
  destruct E' as (E0' & E1'). split; now apply to_N_inj.
Qed.

Lemma group1_inj (s0 t0 : byte) :
  let v := N.shiftl (Byte.to_N s0) 16 in
  let v' := N.shiftl (Byte.to_N t0) 16 in
  encode v 18 = encode v' 18 -> encode v 12 = encode v' 12 -> s0 = t0.
Proof.
  intros v v' E18 E12.
  pose proof (to_N_lt s0) as H0. pose proof (to_N_lt t0) as H0'.
  assert (B : Byte.to_N s0 * 65536 < 16777216) by lia.
  assert (B' : Byte.to_N t0 * 65536 < 16777216) by lia.
  apply encode_inj in E18, E12.
  unfold v, v' in *. rewrite !N.shiftl_mul_pow2 in *.
  change (2 ^ 16) with 65536 in *.
  assert (E : Byte.to_N s0 * 65536 = Byte.to_N t0 * 65536).
  { apply sextets_inj; try assumption.
    - destruct (low_sextets_1 (Byte.to_N s0)) as [Z _].
      destruct (low_sextets_1 (Byte.to_N t0)) as [Z' _].
      now rewrite Z, Z'.
    - destruct (low_sextets_1 (Byte.to_N s0)) as [_ Z].
      destruct (low_sextets_1 (Byte.to_N t0)) as [_ Z'].
      now rewrite Z, Z'. }
  clear E18 E12. apply to_N_inj. lia.
Qed.

(** The encoding loses nothing: different byte strings have different
    encodings. *)
Lemma EncodeToString_inj (n : nat) :
  forall a c : list byte,
    (length a <= n)%nat ->
    EncodeToString a = EncodeToString c -> a = c.
Proof.
  induction n as [n IH] using lt_wf_ind. intros a c L E.
  destruct a as [|s0 [|s1 [|s2 ra]]]; destruct c as [|t0 [|t1 [|t2 rc]]];
    cbn [EncodeToString] in E; try discriminate E; try reflexivity;
    injection E; intros;
    try match goal with
      | H : encode _ _ = padChar |- _ => now apply encode_not_pad in H
      | H : padChar = encode _ _ |- _ =>
          symmetry in H; now apply encode_not_pad in H
      end.
  - f_equal. now apply group1_inj.
  - destruct (group2_inj s0 s1 t0 t1) as [-> ->]; try assumption.
    reflexivity.
  - destruct (group3_inj s0 s1 s2 t0 t1 t2) as (-> & -> & ->);
      try assumption.
    do 3 f_equal. apply (IH (length ra)); [simpl in L; lia|lia|assumption].
Qed.

End Base64Facts.

Section MacTag.
Import hash.

Variable sha256_New : Hash.

(** X15.  Nothing is lost in the text form: two tags are equal as strings
    exactly when the HMAC values they were made from are equal. *)
Theorem HMACSHA256B64_lossless (input input' key key' : list byte) :
  HMACSHA256B64 sha256_New input key = HMACSHA256B64 sha256_New input' key'
  <-> Sum (hmac.New sha256_New key) input
      = Sum (hmac.New sha256_New key') input'.
Proof.
  unfold HMACSHA256B64. split.
  - intros E. eapply EncodeToString_inj; [apply le_n|exact E].
  - now intros ->.
Qed.

Hypothesis sha256_Size : Size sha256_New = 32%nat.

Lemma EncodeToString_32 (m : list byte) :
  length m = 32%nat ->
  length (base64.EncodeToString m) = 44%nat
  /\ nth 43 (base64.EncodeToString m) x00 = "="%byte
  /\ Forall (fun c => In c base64.encodeStd)
       (firstn 43 (base64.EncodeToString m)).
Proof.
  intros L. explode m L. cbn [base64.EncodeToString].
  split; [reflexivity|]. split; [reflexivity|].
  cbn [firstn]. repeat (apply Forall_cons; [apply encode_in|]).
  apply Forall_nil.
Qed.

(** X14.  With a 32-byte digest the tag always has 44 characters: 43
    characters of the standard base64 alphabet followed by one padding
    character ['=']. *)
Theorem HMACSHA256B64_shape (input key : list byte) :
  let tag := HMACSHA256B64 sha256_New input key in
  length tag = 44%nat
  /\ nth 43 tag x00 = "="%byte
  /\ Forall (fun c => In c base64.encodeStd) (firstn 43 tag).
Proof.
  apply EncodeToString_32. rewrite Sum_length. exact sha256_Size.
Qed.

End MacTag.

(** ** Derive, generate, encrypt, authenticate *)

Section Flow.
Import hash.

Variable aes_NewCipher : list byte -> option cipher.Block.
Hypothesis aes_256 :
  forall key, length key = 32%nat ->
    exists blk, aes_NewCipher key = Some blk
                /\ cipher.BlockSize blk = 16%nat.
Variable sha256_New : Hash.
Hypothesis sha256_Size : Size sha256_New = 32%nat.
Variable Source : Type.
Variable next_byte : Source -> byte * Source.

Lemma DeriveKeysSHA256_keys (key : list byte) (name : gostring) :
  exists aesKey hmacKey,
    DeriveKeysSHA256 sha256_New key name = Ok (aesKey, hmacKey)
    /\ length aesKey = 32%nat /\ length hmacKey = 32%nat.
Proof.
  unfold DeriveKeysSHA256, hkdf.New, hkdf.Expand.
  rewrite Read_one_block;
    [|reflexivity|reflexivity
     |cbn [hkdf.size hmac.New Size]; now rewrite sha256_Size
     |cbn [hkdf.size hmac.New Size]; rewrite sha256_Size; lia
     |discriminate].
  cbn [bind]. rewrite Read_one_block;
    [|reflexivity|reflexivity
     |cbn [hkdf.size hmac.New Size]; now rewrite sha256_Size
     |cbn [hkdf.size hmac.New Size]; rewrite sha256_Size; lia
     |discriminate].
  cbn [bind]. eexists _, _. split; [reflexivity|].
  now rewrite !Sum_length.
Qed.

Lemma GenA256CTRIV_length (s : Source) :
  exists iv s',
    GenA256CTRIV next_byte s = Ok (iv, s') /\ length iv = 16%nat.
Proof.
  unfold GenA256CTRIV, rand.Read.
  change (length (zeros AESCTRIVLength)) with 16%nat.
  pose proof (draw_length next_byte 16 s) as Hiv.
  destruct (rand.draw next_byte 16 s) as [iv s1]. simpl in Hiv.
  explode iv Hiv. cbn [index nth_error bind assign length Nat.ltb Nat.leb].
  eexists _, _. split; reflexivity.
Qed.

(** X10.  The functions fit together as the secret-storage code uses them:
    for every secret, label, state of the random source and message, the
    derived AES key and the generated IV are accepted by the cipher, the
    cipher applied twice gives the message back, and the tag of the
    ciphertext under the derived HMAC key has 44 characters.  No step
    panics. *)
Theorem derive_encrypt_authenticate (secret : list byte) (name : gostring)
  (s : Source) (m : list byte) :
  exists aesKey hmacKey iv s' c,
    DeriveKeysSHA256 sha256_New secret name = Ok (aesKey, hmacKey)
    /\ GenA256CTRIV next_byte s = Ok (iv, s')
    /\ XorA256CTR aes_NewCipher m aesKey iv = Ok c
    /\ length c = length m
    /\ XorA256CTR aes_NewCipher c aesKey iv = Ok m
    /\ length (HMACSHA256B64 sha256_New c hmacKey) = 44%nat.
Proof.
  destruct (DeriveKeysSHA256_keys secret name)
    as (aesKey & hmacKey & D & La & _).
  destruct (GenA256CTRIV_length s) as (iv & s' & G & Liv).
  destruct (aes_256 aesKey La) as (blk & Hblk & Hbs).
  set (x := {| cipher.b := blk; cipher.counter := iv; cipher.out := [] |}).
  destruct (xor_loop_returns m x) as (c & x' & E); [simpl; lia|].
  exists aesKey, hmacKey, iv, s', c.
  split; [exact D|]. split; [exact G|].
  rewrite !(XorA256CTR_loop _ _ _ _ Hblk Hbs Liv). fold x. rewrite E.
  cbn [bind]. split; [reflexivity|].
  destruct (xor_loop_length _ _ E) as [L _]. split; [exact L|].
  rewrite (xor_loop_involutive _ _ E). cbn [bind]. split; [reflexivity|].
  unfold HMACSHA256B64.
  apply EncodeToString_32. rewrite Sum_length. exact sha256_Size.
Qed.

End Flow.

(** ** The further properties on sample inputs *)

Section FurtherInstances.

Example EncodeToString_known :
  base64.EncodeToString (str "hello") = str "aGVsbG8="
  /\ base64.EncodeToString (str "hi") = str "aGk="
  /\ base64.EncodeToString (str "abc") = str "YWJj"
  /\ base64.EncodeToString [xfb; xff; xfe] = str "+//+"
  /\ base64.EncodeToString [] = [].
Proof. repeat split; vm_compute; reflexivity. Qed.

Lemma XorA256CTR_extension_witness :
  length sample.secret = 32%nat /\ length sample.iv = 16%nat
  /\ exists c1 c2,
       XorA256CTR sample.NewCipher (str "attach") sample.secret sample.iv
       = Ok c1
       /\ XorA256CTR sample.NewCipher (str "attach" ++ str "ment")
            sample.secret sample.iv = Ok (c1 ++ c2)
       /\ length c1 = length (str "attach")
       /\ length c2 = length (str "ment").
Proof.
  split; [reflexivity|]. split; [reflexivity|].
  apply (XorA256CTR_extension sample.NewCipher sample_aes_256
           (str "attach") (str "ment") sample.secret sample.iv);
    reflexivity.
Defined.

Lemma XorA256CTR_keystream_reuse_witness :
  length sample.secret = 32%nat /\ length sample.iv = 16%nat
  /\ length (str "attack at dawn") = length (str "retreat at six")
  /\ exists c1 c2,
       XorA256CTR sample.NewCipher (str "attack at dawn") sample.secret
         sample.iv = Ok c1
       /\ XorA256CTR sample.NewCipher (str "retreat at six") sample.secret
            sample.iv = Ok c2
       /\ xor_bytes c1 c2
          = xor_bytes (str "attack at dawn") (str "retreat at six").
Proof.
  split; [reflexivity|]. split; [reflexivity|]. split; [reflexivity|].
  apply (XorA256CTR_keystream_reuse sample.NewCipher sample_aes_256
           (str "attack at dawn") (str "retreat at six") sample.secret
           sample.iv); reflexivity.
Defined.

Lemma XorA256CTR_resume_witness :
  length sample.secret = 32%nat /\ length sample.iv = 16%nat
  /\ length (str "0123456789abcdef0123456789abcdef") = (16 * 2)%nat
  /\ let iv' := Nat.iter 2 cipher.increment sample.iv in
     exists c1 c2,
       XorA256CTR sample.NewCipher (str "0123456789abcdef0123456789abcdef")
         sample.secret sample.iv = Ok c1
       /\ XorA256CTR sample.NewCipher (str "tail") sample.secret iv' = Ok c2
       /\ XorA256CTR sample.NewCipher
            (str "0123456789abcdef0123456789abcdef" ++ str "tail")
            sample.secret sample.iv = Ok (c1 ++ c2)
       /\ length iv' = 16%nat
       /\ big.SetBytes iv' = (big.SetBytes sample.iv + N.of_nat 2) mod 2 ^ 128.
Proof.
  split; [reflexivity|]. split; [reflexivity|]. split; [reflexivity|].
  apply (XorA256CTR_resume sample.NewCipher sample_aes_256
           (str "0123456789abcdef0123456789abcdef") (str "tail")
           sample.secret sample.iv 2); reflexivity.
Defined.

Lemma derive_encrypt_authenticate_witness :
  hash.Size sample.sha256 = 32%nat
  /\ exists aesKey hmacKey iv s' c,
       DeriveKeysSHA256 sample.sha256 sample.secret (str "m.cross_signing")
       = Ok (aesKey, hmacKey)
       /\ GenA256CTRIV sample.next_byte 0 = Ok (iv, s')
       /\ XorA256CTR sample.NewCipher (str "secret") aesKey iv = Ok c
       /\ length c = length (str "secret")
       /\ XorA256CTR sample.NewCipher c aesKey iv = Ok (str "secret")
       /\ length (HMACSHA256B64 sample.sha256 c hmacKey) = 44%nat.
Proof.
  split; [reflexivity|].
  apply (derive_encrypt_authenticate sample.NewCipher sample_aes_256
           sample.sha256 eq_refl sample.next_byte sample.secret
           (str "m.cross_signing") 0 (str "secret")).
Defined.

Lemma PBKDF2SHA512_few_iterations_witness :
  (0 <= 1)%Z
  /\ PBKDF2SHA512 sample.sha512 (str "passphrase") (str "salt") 0 256
     = PBKDF2SHA512 sample.sha512 (str "passphrase") (str "salt") 1 256.
Proof.
  split; [lia|].
  apply (@PBKDF2SHA512_few_iterations sample.sha512 (str "passphrase")
           (str "salt") 0%Z 256%Z). lia.
Defined.


Lemma PBKDF2SHA512_negative_length_witness :
  (-16 <= -8)%Z
  /\ PBKDF2SHA512 sample.sha512 (str "passphrase") (str "salt") 3 (-16)
     = Panic.
Proof.
  split; [lia|].
  apply (@PBKDF2SHA512_negative_length sample.sha512 (str "passphrase")
           (str "salt") 3%Z (-16)%Z). lia.
Defined.

Lemma HMACSHA256B64_shape_witness :
  hash.Size sample.sha256 = 32%nat
  /\ let tag := HMACSHA256B64 sample.sha256 (str "message") sample.secret in
     length tag = 44%nat
     /\ nth 43 tag x00 = "="%byte
     /\ Forall (fun c => In c base64.encodeStd) (firstn 43 tag).
Proof.
  split; [reflexivity|].
  apply (HMACSHA256B64_shape sample.sha256 eq_refl (str "message")
           sample.secret).
Defined.

End FurtherInstances.
